(** * Location Task Reminder: a shallow embedding of [src/App.jsx]

    The React component [LocationTaskApp] keeps a task list, a set of
    already-notified task identifiers and a list of notifications.  This
    file embeds the parts of it that carry logic:

    - [extractCoordinates]: the regular expressions that pull a
      latitude/longitude pair out of a Google Maps URL;
    - [calculateDistance]: the haversine formula, in binary64 arithmetic;
    - [checkProximity], [addTask], [deleteTask] and the effect that
      subscribes the geolocation callback.

    JavaScript numbers are IEEE 754 binary64 values: they are modelled by
    Rocq's primitive [float], whose operations are the same.  JavaScript
    strings are modelled by [string] (the UTF-8 bytes of the text); the
    regular expressions of the source only test ASCII characters, so the
    encoding does not change which strings match. *)

From stdpp Require Import base gmap sets list.
From Stdlib Require Import ZArith List Bool Ascii String Lia Floats.
Import ListNotations.

#[local] Set Warnings "-clear-no-such-hyp".

(* ===================================================================== *)
(** * Part I: the program *)
(* ===================================================================== *)

(** ** Strings *)

Module JsString.

(** [s.includes(sub)]: [sub] occurs somewhere in [s]. *)
Fixpoint includes (s sub : string) : bool :=
  if String.prefix sub s then true
  else match s with
       | EmptyString => false
       | String _ s' => includes s' sub
       end.

(** The suffix of [s] that starts at index [n]. *)
Fixpoint drop (n : nat) (s : string) : string :=
  match n, s with
  | O, _ => s
  | S n', String _ s' => drop n' s'
  | S _, EmptyString => EmptyString
  end.

End JsString.

(** ** Regular expressions

    The four patterns of [extractCoordinates] are sequences of literal
    characters, an optional literal ([-?]), greedy repetitions of a
    character class ([\d+], [[^/]+]) and capture groups that are not
    nested.  [match_here] is a backtracking matcher for such sequences:
    a greedy item first tries its longest match and gives characters back
    one at a time when the rest of the pattern fails. *)

Module Regex.

Inductive charclass :=
| Digit      (* \d   *)
| NotSlash.  (* [^/] *)

Inductive atom :=
| Chr (c : ascii)        (* a literal character      *)
| Opt (c : ascii)        (* c?                       *)
| Plus (k : charclass)   (* k+                       *)
| GroupOpen              (* the "(" of a capture group *)
| GroupClose.            (* the ")" of a capture group *)

Definition regex := list atom.

Definition is_digit (c : ascii) : bool :=
  (48 <=? nat_of_ascii c)%nat && (nat_of_ascii c <=? 57)%nat.

Definition in_class (k : charclass) (c : ascii) : bool :=
  match k with
  | Digit => is_digit c
  | NotSlash => negb (Ascii.eqb c "/")
  end.

(** The result of a successful match from one position: the text consumed
    up to the next [GroupClose] (the content of the group being read, when
    the position is inside one), and the groups opened from here on. *)
Definition found := (string * list string)%type.

Definition consume (c : ascii) (m : found) : found := (String c (fst m), snd m).

(** A match [m] after the matched text [p]. *)
Definition prepend (p : string) (m : found) : found := (String.append p (fst m), snd m).

Fixpoint match_here (r : regex) : string -> option found :=
  match r with
  | [] => fun _ => Some (EmptyString, [])
  | Chr c :: r' => fun s =>
      match s with
      | String x s' =>
          if Ascii.eqb x c then option_map (consume x) (match_here r' s') else None
      | EmptyString => None
      end
  | Opt c :: r' => fun s =>
      let skip := match_here r' s in
      match s with
      | String x s' =>
          if Ascii.eqb x c then
            match match_here r' s' with
            | Some m => Some (consume x m)
            | None => skip
            end
          else skip
      | EmptyString => skip
      end
  | Plus k :: r' =>
      fix more (s : string) : option found :=
        match s with
        | String x s' =>
            if in_class k x then
              match more s' with
              | Some m => Some (consume x m)
              | None => option_map (consume x) (match_here r' s')
              end
            else None
        | EmptyString => None
        end
  | GroupOpen :: r' => fun s =>
      option_map (fun m => (EmptyString, fst m :: snd m)) (match_here r' s)
  | GroupClose :: r' => fun s =>
      option_map (fun m => (EmptyString, snd m)) (match_here r' s)
  end.

(** [s.match(r)] for a pattern without the global flag: the leftmost
    position where the pattern matches; the result is the list of its
    captured groups. *)
Fixpoint exec (r : regex) (s : string) : option (list string) :=
  match match_here r s with
  | Some m => Some (snd m)
  | None =>
      match s with
      | String _ s' => exec r s'
      | EmptyString => None
      end
  end.


(** [s] starts with a character of the class [k]. *)
Definition starts_in (k : charclass) (s : string) : bool :=
  match s with
  | String c _ => in_class k c
  | EmptyString => false
  end.

(** Every character of [s] is in the class [k]. *)
Fixpoint all_in (k : charclass) (s : string) : bool :=
  match s with
  | String c s' => in_class k c && all_in k s'
  | EmptyString => true
  end.

(** [m[i]] for [i >= 1]; an absent group reads as the empty text. *)
Definition group (i : nat) (m : list string) : string := nth (pred i) m EmptyString.

Definition lit (s : string) : regex := map Chr (list_ascii_of_string s).

End Regex.

(** ** [parseFloat] on decimal text *)

Module Number.

Definition digit_val (c : ascii) : Z := Z.of_nat (nat_of_ascii c) - 48.

Fixpoint digits_value (acc : Z) (s : string) : Z :=
  match s with
  | EmptyString => acc
  | String c s' => digits_value (10 * acc + digit_val c) s'
  end.

(** The longest prefix of decimal digits, and what follows it. *)
Fixpoint span_digits (s : string) : string * string :=
  match s with
  | String c s' =>
      if Regex.is_digit c then
        let (d, rest) := span_digits s' in (String c d, rest)
      else (EmptyString, s)
  | EmptyString => (EmptyString, EmptyString)
  end.

(** Text of the form [\d+\.\d+], and of the form [-?\d+\.\d+]. *)
Definition is_decimal (s : string) : bool :=
  match span_digits s with
  | (String _ _, String "." fp) =>
      match fp with
      | String _ _ => Regex.all_in Regex.Digit fp
      | EmptyString => false
      end
  | _ => false
  end.

Definition is_signed_decimal (s : string) : bool :=
  match s with
  | String "-" r => is_decimal r
  | _ => is_decimal s
  end.

(** The binary64 value nearest to [(-1)^neg * m / 10^k] (ties to even):
    one correctly rounded division of two exact integers. *)
Definition decimal (neg : bool) (m : Z) (k : nat) : spec_float :=
  match m with
  | Zpos p =>
      SFdiv prec emax (S754_finite neg p 0)
                      (S754_finite false (Z.to_pos (10 ^ Z.of_nat k)) 0)
  | Z0 => S754_zero neg
  | Zneg _ => S754_nan
  end.

(** [parseFloat(s)] for text that starts with an optional sign, digits and
    an optional fraction: the number denoted by the longest such prefix,
    [NaN] when there is no digit.  Exponents, [Infinity] and leading white
    space are not modelled: [extractCoordinates] only passes text matched
    by [-?\d+\.\d+]. *)
Definition parseFloat (s : string) : float :=
  let '(neg, s1) :=
    match s with
    | String "-" r => (true, r)
    | String "+" r => (false, r)
    | _ => (false, s)
    end in
  let '(ip, s2) := span_digits s1 in
  let fp := match s2 with
            | String "." r => fst (span_digits r)
            | _ => EmptyString
            end in
  match ip, fp with
  | EmptyString, EmptyString => nan
  | _, _ => SF2Prim (decimal neg (digits_value 0 (ip ++ fp)) (String.length fp))
  end.

End Number.

(** ** CoordinateExtractor: [extractCoordinates] *)

Module Extractor.
Import Regex.

(** What [extractCoordinates] returns: an object [{lat, lng}], the string
    ['SHORT_URL'], or [null]. *)
Inductive extracted :=
| Coords (lat lng : float)
| SHORT_URL
| Null.

(** [(-?\d+\.\d+)] *)
Definition signed_decimal : regex :=
  [GroupOpen; Opt "-"; Plus Digit; Chr "."; Plus Digit; GroupClose].

(** [/@(-?\d+\.\d+),(-?\d+\.\d+)/] *)
Definition pattern1 : regex :=
  lit "@" ++ signed_decimal ++ lit "," ++ signed_decimal.

(** [/q=(-?\d+\.\d+),(-?\d+\.\d+)/] *)
Definition pattern2 : regex :=
  lit "q=" ++ signed_decimal ++ lit "," ++ signed_decimal.

(** [/!3d(-?\d+\.\d+)!4d(-?\d+\.\d+)/] *)
Definition pattern3 : regex :=
  lit "!3d" ++ signed_decimal ++ lit "!4d" ++ signed_decimal.

(** [/\/maps\/place\/[^/]+\/@(-?\d+\.\d+),(-?\d+\.\d+)/] *)
Definition pattern4 : regex :=
  lit "/maps/place/" ++ [Plus NotSlash] ++ lit "/@" ++
  signed_decimal ++ lit "," ++ signed_decimal.

(** [{ lat: parseFloat(m[1]), lng: parseFloat(m[2]) }] *)
Definition coordsOf (m : list string) : extracted :=
  Coords (Number.parseFloat (group 1 m)) (Number.parseFloat (group 2 m)).

(** The patterns are tried in order; the [try]/[catch] of the source never
    fires, because [match] and [includes] on a string do not throw. *)
Definition extractCoordinates (url : string) : extracted :=
  match exec pattern1 url with
  | Some match1 => coordsOf match1
  | None =>
  match exec pattern2 url with
  | Some match2 => coordsOf match2
  | None =>
  match exec pattern3 url with
  | Some match3 => coordsOf match3
  | None =>
  match exec pattern4 url with
  | Some match4 => coordsOf match4
  | None =>
      if JsString.includes url "maps.app.goo.gl" || JsString.includes url "goo.gl"
      then SHORT_URL
      else Null
  end end end end.

(** [extractCoordinates] with the branch of pattern 4 (lines 61-66)
    removed. *)
Definition extractCoordinates_without_pattern4 (url : string) : extracted :=
  match exec pattern1 url with
  | Some match1 => coordsOf match1
  | None =>
  match exec pattern2 url with
  | Some match2 => coordsOf match2
  | None =>
  match exec pattern3 url with
  | Some match3 => coordsOf match3
  | None =>
      if JsString.includes url "maps.app.goo.gl" || JsString.includes url "goo.gl"
      then SHORT_URL
      else Null
  end end end.

(** Latitude in [-90, 90] and longitude in [-180, 180]. *)
Definition in_range (lat lng : float) : bool :=
  ((-90 <=? lat) && (lat <=? 90) && (-180 <=? lng) && (lng <=? 180))%float.

(** A digit, a dot and a digit in a row, at the start of [s] and somewhere
    in [s]: what every text matched by [\d+\.\d+] contains. *)
Definition starts_fraction (s : string) : bool :=
  match s with
  | String a (String b (String c _)) => is_digit a && Ascii.eqb b "." && is_digit c
  | _ => false
  end.

Fixpoint has_fraction (s : string) : bool :=
  if starts_fraction s then true
  else match s with
       | EmptyString => false
       | String _ s' => has_fraction s'
       end.

End Extractor.

(** ** DistanceCalculator: [calculateDistance] *)

Module Haversine.
Local Open Scope float_scope.

(** A zero, or a finite number whose exponent is at most [B]. *)
Definition SFexp_le (B : Z) (x : spec_float) : Prop :=
  match x with
  | S754_zero _ => True
  | S754_finite _ m e => (e <= B)%Z
  | _ => False
  end.

(** [Math.sin], [Math.cos] and [Math.atan2] are functions of the engine
    (ECMAScript leaves their results implementation-approximated), so they
    are parameters; [+], [-], [*], [/] and [Math.sqrt] are the IEEE 754
    operations of [float]. *)
Record MathLib := {
  sin : float -> float;
  cos : float -> float;
  atan2 : float -> float -> float
}.

(** [Math.PI] *)
Definition PI : float := 0x1.921fb54442d18p+1%float.

Definition calculateDistance (Math : MathLib)
    (lat1 lon1 lat2 lon2 : float) : float :=
  let R := 6371e3 in
  let phi1 := lat1 * PI / 180 in
  let phi2 := lat2 * PI / 180 in
  let dphi := (lat2 - lat1) * PI / 180 in
  let dlam := (lon2 - lon1) * PI / 180 in
  let a := sin Math (dphi / 2) * sin Math (dphi / 2) +
           cos Math phi1 * cos Math phi2 *
           sin Math (dlam / 2) * sin Math (dlam / 2) in
  let c := 2 * atan2 Math (sqrt a) (sqrt (1 - a)) in
  R * c.

(** What the proofs below use of the library.  ECMAScript fixes
    [Math.sin(+0) = +0] and [Math.atan2(+0, x) = +0] for [x > 0]; that the
    sine is odd and that the cosine of a finite number lies in [-1, 1]
    holds of the implementations in use (they follow fdlibm), though the
    language specification only asks for an approximation. *)
Record Conforming (Math : MathLib) : Prop := {
  sin_zero : sin Math 0 = 0%float;
  sin_odd : forall x, sin Math (- x) = (- sin Math x)%float;
  cos_range : forall x, is_finite x = true ->
              (-1 <=? cos Math x) = true /\ (cos Math x <=? 1) = true;
  atan2_zero : forall x, (0 <? x)%float = true -> atan2 Math 0 x = 0%float
}.

(** ECMAScript fixes that [Math.sin] of [NaN] is [NaN], and that
    [Math.atan2] is [NaN] when an argument is. *)
Record NaNPropagating (Math : MathLib) : Prop := {
  sin_nan : sin Math nan = nan;
  atan2_nan : forall x, atan2 Math nan x = nan
}.

(** A library to run the formula on examples: the first-order
    approximations [sin x = x], [cos x = 1] and [atan2 y x = y / x].  It is
    used for examples only; the properties below are proved for every
    library or every distance function. *)
Definition SmallAngle : MathLib :=
  {| sin := fun x => x; cos := fun _ => 1; atan2 := fun y x => y / x |}.

End Haversine.

(** ** The component: state, handlers, and the geolocation subscription *)

Module Task.
(** [{ id, name, location, lat, lng, mapsUrl }].  [lat] and [lng] are read
    off the value returned by [extractCoordinates]; they are [undefined]
    ([None]) when that value has no such property. *)
Record t := {
  id : Z;
  name : string;
  location : string;
  lat : option float;
  lng : option float;
  mapsUrl : string
}.
End Task.

Module Notification.
(** [{ id, text }] *)
Record t := { id : Z; text : string }.
End Notification.

Module Position.
(** [{ lat, lng }] as built from [position.coords]. *)
Record t := { lat : float; lng : float }.
End Position.

Module App.

(** The values of [tasks] and [notifiedTasks] in the render whose effect
    registered the callback of [watchPosition]: the [checkProximity] that
    the callback calls is the one of that render, and reads these. *)
Record Closure := {
  c_tasks : list Task.t;
  c_notifiedTasks : gset Z
}.

(** The [useState] cells of the component, and [watch]: the callback
    currently registered with [navigator.geolocation.watchPosition], if
    any. *)
Record State := {
  tasks : list Task.t;
  taskName : string;
  locationName : string;
  googleMapsUrl : string;
  userLocation : option Position.t;
  notifications : list Notification.t;
  tracking : bool;
  notifiedTasks : gset Z;
  watch : option Closure
}.

Definition initial : State := {|
  tasks := [];
  taskName := EmptyString;
  locationName := EmptyString;
  googleMapsUrl := EmptyString;
  userLocation := None;
  notifications := [];
  tracking := false;
  notifiedTasks := ∅;
  watch := None
|}.

(** [set.has(x)] *)
Definition has (set : gset Z) (x : Z) : bool := bool_decide (x ∈ set).

(** A property that is [undefined] becomes [NaN] in arithmetic. *)
Definition toNumber (v : option float) : float :=
  match v with
  | Some x => x
  | None => nan
  end.

(** [!s] for a string: only the empty string is falsy. *)
Definition falsy (s : string) : bool :=
  match s with
  | EmptyString => true
  | String _ _ => false
  end.

Definition proximityThreshold : float := 1609%float.

(** The template literal of line 110; the pin emoji is U+1F4CD. *)
Definition notifText (task : Task.t) : string :=
  ("📍 Nearby reminder: " ++ Task.name task ++ " at " ++ Task.location task)%string.

Section Proximity.

(** The component only calls [calculateDistance] and compares its result
    with the thresholds: it is a parameter here, to be instantiated with
    [Haversine.calculateDistance Math] for the [Math] of the engine. *)
Variable calculateDistance : float -> float -> float -> float -> float.

(** The distance that [checkProximity] computes for one task. *)
Definition distanceTo (currentLocation : Position.t) (task : Task.t) : float :=
  calculateDistance (Position.lat currentLocation) (Position.lng currentLocation)
                    (toNumber (Task.lat task)) (toNumber (Task.lng task)).

(** The record that line 111 appends for [task], as the [k]-th of a pass. *)
Definition alert_for (now : nat -> Z) (k : nat) (task : Task.t) : Notification.t :=
  {| Notification.id := now k; Notification.text := notifText task |}.

(** The test of line 108, for the set [notified] that the closure holds. *)
Definition qualifies (notified : gset Z) (currentLocation : Position.t)
    (task : Task.t) : bool :=
  (distanceTo currentLocation task <=? proximityThreshold)%float
  && negb (has notified (Task.id task)).

(** The body of the [forEach] of [checkProximity] for one task.  [acc] is
    the pair of the notifications queued by this pass and the set that the
    queued updaters [prev => ...] of [setNotifiedTasks] produce so far; the
    test reads [notifiedTasks] of the closure, never [prev].  [now k] is
    what the [k]-th call of [Date.now()] in this pass returns. *)
Definition checkTask (c : Closure) (now : nat -> Z) (currentLocation : Position.t)
    (acc : list Notification.t * gset Z) (task : Task.t)
  : list Notification.t * gset Z :=
  let distance := distanceTo currentLocation task in
  if (distance <=? proximityThreshold)%float && negb (has (c_notifiedTasks c) (Task.id task))
  then
    (fst acc ++ [ {| Notification.id := now (List.length (fst acc));
                     Notification.text := notifText task |} ],
     snd acc ∪ {[ Task.id task ]})
  else if (proximityThreshold * 2 <? distance)%float
  then (fst acc, snd acc ∖ {[ Task.id task ]})
  else acc.

(** [checkProximity(currentLocation)] in the closure [c], with the
    updaters applied to the current set [prev]: the notifications it
    appends and the new set. *)
Definition checkProximity (c : Closure) (now : nat -> Z) (currentLocation : Position.t)
    (prev : gset Z) : list Notification.t * gset Z :=
  fold_left (checkTask c now currentLocation) (c_tasks c) ([], prev).

(** The proximity evaluation as a function of the location, the task list
    and the prior set, when the set it reads is the set it updates. *)
Definition evaluate (current : Position.t) (tasks : list Task.t) (priorState : gset Z)
    (now : nat -> Z) : list Notification.t * gset Z :=
  checkProximity {| c_tasks := tasks; c_notifiedTasks := priorState |} now current priorState.

(** The effect of lines 15-35 runs again when [tracking] or [tasks]
    changed (its dependency array is [[tracking, tasks]]): the old watch is
    cleared and, while tracking, a callback closing over the values of
    this render is registered.  The browser is taken to have
    [navigator.geolocation], and the effect to run before the next
    position is delivered. *)
Definition resubscribe (s : State) : State :=
  {| tasks := tasks s; taskName := taskName s; locationName := locationName s;
     googleMapsUrl := googleMapsUrl s; userLocation := userLocation s;
     notifications := notifications s; tracking := tracking s;
     notifiedTasks := notifiedTasks s;
     watch := if tracking s
              then Some {| c_tasks := tasks s; c_notifiedTasks := notifiedTasks s |}
              else None |}.

(** The success callback of [watchPosition]: [setUserLocation], then
    [checkProximity] of the closure.  The state changes, the component
    renders again, but neither [tracking] nor [tasks] changed: the effect
    does not run and the registered callback stays the same.  (The
    operating-system notification of lines 115-120 carries the same text
    and changes no state; it is left out.) *)
Definition onPosition (now : nat -> Z) (newLocation : Position.t) (s : State) : State :=
  match watch s with
  | Some c =>
      let r := checkProximity c now newLocation (notifiedTasks s) in
      {| tasks := tasks s; taskName := taskName s; locationName := locationName s;
         googleMapsUrl := googleMapsUrl s; userLocation := Some newLocation;
         notifications := notifications s ++ fst r; tracking := tracking s;
         notifiedTasks := snd r;
         watch := watch s |}
  | None => s
  end.

(** The error callback of [watchPosition]. *)
Definition onPositionError (now : Z) (s : State) : State :=
  match watch s with
  | Some _ =>
      {| tasks := tasks s; taskName := taskName s; locationName := locationName s;
         googleMapsUrl := googleMapsUrl s; userLocation := userLocation s;
         notifications := notifications s ++
           [ {| Notification.id := now;
                Notification.text := "Location access denied or unavailable" |} ];
         tracking := tracking s; notifiedTasks := notifiedTasks s;
         watch := watch s |}
  | None => s
  end.

(** [coords.lat] and [coords.lng] on what [extractCoordinates] returned. *)
Definition coords_lat (coords : Extractor.extracted) : option float :=
  match coords with
  | Extractor.Coords lat _ => Some lat
  | _ => None
  end.

Definition coords_lng (coords : Extractor.extracted) : option float :=
  match coords with
  | Extractor.Coords _ lng => Some lng
  | _ => None
  end.

(** [!coords]: [null] is falsy, an object and a non-empty string are not. *)
Definition falsy_coords (coords : Extractor.extracted) : bool :=
  match coords with
  | Extractor.Null => true
  | _ => false
  end.

(** [addTask()]; the second component is the text passed to [alert], if
    any.  [now] is the value of [Date.now()]. *)
Definition addTask (now : Z) (s : State) : State * option string :=
  if falsy (taskName s) || falsy (locationName s) || falsy (googleMapsUrl s)
  then (s, Some "Please fill in all fields"%string)
  else
    let coords := Extractor.extractCoordinates (googleMapsUrl s) in
    if falsy_coords coords
    then (s, Some "Could not extract coordinates from Google Maps URL. Please make sure you copied the full URL from Google Maps."%string)
    else
      let newTask := {| Task.id := now;
                        Task.name := taskName s;
                        Task.location := locationName s;
                        Task.lat := coords_lat coords;
                        Task.lng := coords_lng coords;
                        Task.mapsUrl := googleMapsUrl s |} in
      (resubscribe
         {| tasks := tasks s ++ [newTask];
            taskName := EmptyString; locationName := EmptyString;
            googleMapsUrl := EmptyString; userLocation := userLocation s;
            notifications := notifications s; tracking := tracking s;
            notifiedTasks := notifiedTasks s; watch := watch s |},
       None).

(** [deleteTask(id)] *)
Definition deleteTask (id : Z) (s : State) : State :=
  resubscribe
    {| tasks := List.filter (fun task => negb (Task.id task =? id)%Z) (tasks s);
       taskName := taskName s; locationName := locationName s;
       googleMapsUrl := googleMapsUrl s; userLocation := userLocation s;
       notifications := notifications s; tracking := tracking s;
       notifiedTasks := notifiedTasks s ∖ {[ id ]};
       watch := watch s |}.

(** [setTracking(value)]: when the value is the current one React keeps
    the state and no effect runs; otherwise the component renders again
    and the effect of lines 15-35, which depends on [tracking], runs. *)
Definition setTracking (value : bool) (s : State) : State :=
  if Bool.eqb value (tracking s) then s
  else resubscribe
         {| tasks := tasks s; taskName := taskName s; locationName := locationName s;
            googleMapsUrl := googleMapsUrl s; userLocation := userLocation s;
            notifications := notifications s; tracking := value;
            notifiedTasks := notifiedTasks s; watch := watch s |}.

(** [toggleTracking()], from the click to its end or to the [await] of
    line 172.  [permission_default] is the value of
    ['Notification' in window && Notification.permission === 'default'] at
    the click.  When tracking is off and the permission is still to be
    asked, the call suspends at [await Notification.requestPermission()]
    and has changed nothing; otherwise it reaches line 175 at once and
    calls [setTracking(!tracking)]. *)
Definition toggleTracking (permission_default : bool) (s : State) : State :=
  if negb (tracking s) && permission_default then s
  else setTracking (negb (tracking s)) s.

(** The rest of a suspended [toggleTracking()], run when the permission
    request settles: line 175 with the [tracking] of the render of the
    click.  The call suspended only because that [tracking] was [false],
    so this is [setTracking(true)], whatever [tracking] has become. *)
Definition resumeTracking (s : State) : State := setTracking (negb false) s.

(** [dismissNotification(id)] *)
Definition dismissNotification (id : Z) (s : State) : State :=
  {| tasks := tasks s; taskName := taskName s; locationName := locationName s;
     googleMapsUrl := googleMapsUrl s; userLocation := userLocation s;
     notifications :=
       List.filter (fun n => negb (Notification.id n =? id)%Z) (notifications s);
     tracking := tracking s; notifiedTasks := notifiedTasks s; watch := watch s |}.

(** Typing in the three inputs of the form. *)
Definition setForm (name loc url : string) (s : State) : State :=
  {| tasks := tasks s; taskName := name; locationName := loc;
     googleMapsUrl := url; userLocation := userLocation s;
     notifications := notifications s; tracking := tracking s;
     notifiedTasks := notifiedTasks s; watch := watch s |}.

(** The component while it tracks the tasks [ts], none of them notified
    yet: the state after the tasks were added and tracking was started. *)
Definition tracking_armed (ts : list Task.t) : State :=
  resubscribe
    {| tasks := ts; taskName := EmptyString; locationName := EmptyString;
       googleMapsUrl := EmptyString; userLocation := None;
       notifications := []; tracking := true;
       notifiedTasks := ∅; watch := None |}.

(** What can happen to the component.  [PermissionSettled] is the
    permission request of a suspended [toggleTracking()] settling; the
    browser delivers it only after such a call, the runs below allow it
    at any time. *)
Inductive event :=
| SetForm (name loc url : string)
| AddTask (now : Z)
| DeleteTask (id : Z)
| ToggleTracking (permission_default : bool)
| Dismiss (id : Z)
| PositionUpdate (now : nat -> Z) (newLocation : Position.t)
| PositionError (now : Z)
| PermissionSettled.

Definition step (s : State) (e : event) : State :=
  match e with
  | SetForm n l u => setForm n l u s
  | AddTask now => fst (addTask now s)
  | DeleteTask id => deleteTask id s
  | ToggleTracking permission_default => toggleTracking permission_default s
  | Dismiss id => dismissNotification id s
  | PositionUpdate now loc => onPosition now loc s
  | PositionError now => onPositionError now s
  | PermissionSettled => resumeTracking s
  end.

Definition run (s : State) (es : list event) : State := fold_left step es s.

(** The notifications that each of a sequence of events appends. *)
Fixpoint emitted (s : State) (es : list event) : list (list Notification.t) :=
  match es with
  | [] => []
  | e :: es' =>
      let s' := step s e in
      List.skipn (List.length (notifications s)) (notifications s') :: emitted s' es'
  end.

(** A sequence of evaluations, each given the set that the previous one
    returned. *)
Fixpoint evaluate_all (tasks : list Task.t) (priorState : gset Z)
    (updates : list ((nat -> Z) * Position.t)) : list (list Notification.t) :=
  match updates with
  | [] => []
  | (now, current) :: rest =>
      let r := evaluate current tasks priorState now in
      fst r :: evaluate_all tasks (snd r) rest
  end.

(** The invariant of the data model: the set only holds identifiers of
    tasks of the list; and the registered callback, if any, closes over
    the current task list. *)
Definition references_tasks (set : gset Z) (ts : list Task.t) : Prop :=
  forall x, x ∈ set -> exists task, In task ts /\ Task.id task = x.

Definition Inv (s : State) : Prop :=
  references_tasks (notifiedTasks s) (tasks s) /\
  forall c, watch s = Some c -> c_tasks c = tasks s.

(** The test of line 121, reached when line 108 failed: the task is
    beyond twice the threshold, and its identifier is deleted. *)
Definition resets (notified : gset Z) (currentLocation : Position.t)
    (task : Task.t) : bool :=
  negb (qualifies notified currentLocation task)
  && (proximityThreshold * 2 <? distanceTo currentLocation task)%float.

(** The events after which the effect does not run again: they change
    neither [tracking] nor [tasks]. *)
Definition keeps_subscription (e : event) : bool :=
  match e with
  | SetForm _ _ _ | Dismiss _ | PositionUpdate _ _ | PositionError _ => true
  | AddTask _ | DeleteTask _ | ToggleTracking _ | PermissionSettled => false
  end.

(** The events after which the effect runs again: [addTask] when it adds a
    task, [deleteTask], [toggleTracking] when it does not suspend, and the
    rest of a suspended [toggleTracking] when tracking is still off. *)
Definition renews_subscription (s : State) (e : event) : Prop :=
  match e with
  | AddTask now => snd (addTask now s) = None
  | DeleteTask _ => True
  | ToggleTracking permission_default => negb (tracking s) && permission_default = false
  | PermissionSettled => tracking s = false
  | _ => False
  end.

(** A callback is registered exactly while tracking is on, and it closes
    over the current task list. *)
Definition Subscribed (s : State) : Prop :=
  match watch s with
  | Some c => tracking s = true /\ c_tasks c = tasks s
  | None => tracking s = false
  end.

(** The states of the component: those that events lead to from the
    initial one. *)
Definition reachable (s : State) : Prop := exists es, s = run initial es.

End Proximity.

(** A task as [addTask] builds it: three non-empty texts, and the [lat]
    and [lng] that [extractCoordinates] gives for its [mapsUrl], which
    was not [null]. *)
Definition as_added (task : Task.t) : Prop :=
  falsy (Task.name task) = false /\ falsy (Task.location task) = false /\
  falsy (Task.mapsUrl task) = false /\
  falsy_coords (Extractor.extractCoordinates (Task.mapsUrl task)) = false /\
  Task.lat task = coords_lat (Extractor.extractCoordinates (Task.mapsUrl task)) /\
  Task.lng task = coords_lng (Extractor.extractCoordinates (Task.mapsUrl task)).

End App.

(** ** Example data *)

Module Examples.

(** The haversine distance, run with the example library. *)
Definition haversine : float -> float -> float -> float -> float :=
  Haversine.calculateDistance Haversine.SmallAngle.

(** Metres along a meridian at 2^17 metres per degree of latitude: a
    distance function for which positions at round distances are exact. *)
Definition meridian (lat1 lon1 lat2 lon2 : float) : float :=
  (abs (lat2 - lat1) * 131072)%float.

Definition drill : Task.t :=
  {| Task.id := 1700000000000;
     Task.name := "Buy drill";
     Task.location := "Home Depot";
     Task.lat := Some 40%float;
     Task.lng := Some (-75)%float;
     Task.mapsUrl := "https://maps.google.com/@40.0000,-75.0000,15z" |}.

(** A task one kilometre north of [drill], and a task added from a short
    link. *)
Definition paint : Task.t :=
  {| Task.id := 1700000000001;
     Task.name := "Buy paint";
     Task.location := "Paint shop";
     Task.lat := Some (40 + 1000 / 131072)%float;
     Task.lng := Some (-75)%float;
     Task.mapsUrl := "https://maps.google.com/@40.00762939453125,-75.0000,15z" |}.

Definition errand : Task.t :=
  {| Task.id := 1700000000002;
     Task.name := "Post office";
     Task.location := "Main Street";
     Task.lat := None;
     Task.lng := None;
     Task.mapsUrl := "https://maps.app.goo.gl/AbCdEf123" |}.

(** The position of [drill], and positions to its north. *)
Definition here : Position.t := {| Position.lat := 40; Position.lng := -75 |}.

Definition north (metres : float) : Position.t :=
  {| Position.lat := 40 + metres / 131072; Position.lng := -75 |}.

(** Positions on the meridian of [drill], [d] degrees of latitude to its
    north: one degree is about 111 km, 0.0087890625 degrees (9/1024) about
    977 m. *)
Definition degrees_north (d : float) : Position.t :=
  {| Position.lat := 40 + d; Position.lng := -75 |}.

(** A clock that reads [t] at every call. *)
Definition at_time (t : Z) : nat -> Z := fun _ => t.

End Examples.


(* ===================================================================== *)
(** * Part II: properties *)
(* ===================================================================== *)

Import Extractor App.
Import Haversine(SFexp_le).

(** ** The two thresholds *)

Lemma SF_leb_ltb_next (x : spec_float) (m0 : positive) (e0 : Z) :
  SFleb x (S754_finite false m0 e0) = true ->
  SFltb (S754_finite false m0 (e0 + 1)) x = false.
Proof.
  unfold SFleb, SFltb.
  destruct x as [s|s| |s m e]; simpl; try discriminate; try reflexivity.
  - destruct s; [reflexivity|discriminate].
  - destruct s; [reflexivity|].
    destruct (Z.compare_spec e e0); try discriminate.
    + subst. intros _. destruct (Z.compare_spec (e0 + 1) e0); try lia; reflexivity.
    + intros _. destruct (Z.compare_spec (e0 + 1) e); try lia; reflexivity.
Qed.

(** A distance within the near threshold is not beyond the far one. *)
Lemma near_not_far (d : float) :
  (d <=? proximityThreshold)%float = true ->
  (proximityThreshold * 2 <? d)%float = false.
Proof.
  rewrite leb_spec, ltb_spec.
  replace (Prim2SF (proximityThreshold * 2))
    with (S754_finite false 7076456836366336 (-42 + 1)) by (vm_compute; reflexivity).
  replace (Prim2SF proximityThreshold)
    with (S754_finite false 7076456836366336 (-42)) by (vm_compute; reflexivity).
  apply SF_leb_ltb_next.
Qed.

(** ** One pass of [checkProximity] *)

Lemma has_true (set : gset Z) (x : Z) : has set x = true <-> x ∈ set.
Proof. unfold has. apply bool_decide_eq_true. Qed.

Lemma has_false (set : gset Z) (x : Z) : has set x = false <-> x ∉ set.
Proof. unfold has. apply bool_decide_eq_false. Qed.

Lemma has_empty (x : Z) : has ∅ x = false.
Proof. apply has_false. set_solver. Qed.

Section ProximityFacts.

Variable calculateDistance : float -> float -> float -> float -> float.

Local Abbreviation distanceTo := (App.distanceTo calculateDistance).
Local Abbreviation checkTask := (App.checkTask calculateDistance).
Local Abbreviation qualifies := (App.qualifies calculateDistance).
Local Abbreviation checkProximity := (App.checkProximity calculateDistance).
Local Abbreviation evaluate := (App.evaluate calculateDistance).
Local Abbreviation onPosition := (App.onPosition calculateDistance).
Local Abbreviation step := (App.step calculateDistance).
Local Abbreviation run := (App.run calculateDistance).
Local Abbreviation emitted := (App.emitted calculateDistance).
Local Abbreviation evaluate_all := (App.evaluate_all calculateDistance).

Lemma checkTask_alert c now loc acc task :
  (distanceTo loc task <=? proximityThreshold)%float = true ->
  Task.id task ∉ c_notifiedTasks c ->
  checkTask c now loc acc task =
    (fst acc ++ [alert_for now (List.length (fst acc)) task], snd acc ∪ {[ Task.id task ]}).
Proof.
  intros Hd Hn. unfold App.checkTask. rewrite Hd.
  apply has_false in Hn. rewrite Hn. reflexivity.
Qed.

Lemma checkTask_reset c now loc acc task :
  (proximityThreshold * 2 <? distanceTo loc task)%float = true ->
  checkTask c now loc acc task = (fst acc, snd acc ∖ {[ Task.id task ]}).
Proof.
  intros Hd. unfold App.checkTask. rewrite Hd.
  destruct (distanceTo loc task <=? proximityThreshold)%float eqn:Hn; [|reflexivity].
  apply near_not_far in Hn. congruence.
Qed.

Lemma checkTask_quiet c now loc acc task :
  (distanceTo loc task <=? proximityThreshold)%float = false \/
  Task.id task ∈ c_notifiedTasks c ->
  (proximityThreshold * 2 <? distanceTo loc task)%float = false ->
  checkTask c now loc acc task = acc.
Proof.
  intros Hn Hf. unfold App.checkTask. rewrite Hf.
  destruct Hn as [Hn|Hn].
  - rewrite Hn. reflexivity.
  - apply has_true in Hn. rewrite Hn, andb_false_r. reflexivity.
Qed.


Lemma checkProximity_one c now loc prev task :
  c_tasks c = [task] ->
  checkProximity c now loc prev = checkTask c now loc ([], prev) task.
Proof. intros H. unfold App.checkProximity. rewrite H. reflexivity. Qed.

(** *** The registered callback *)

Lemma onPosition_watch now loc s c :
  watch s = Some c ->
  watch (onPosition now loc s) = Some c /\
  tasks (onPosition now loc s) = tasks s /\
  notifications (onPosition now loc s) =
    notifications s ++ fst (checkProximity c now loc (notifiedTasks s)) /\
  notifiedTasks (onPosition now loc s) = snd (checkProximity c now loc (notifiedTasks s)).
Proof. intros H. unfold App.onPosition. rewrite H. simpl. auto. Qed.

Lemma skipn_length_app {A} (l k : list A) : List.skipn (List.length l) (l ++ k) = k.
Proof. induction l; simpl; auto. Qed.

Lemma emitted_position now loc s c es :
  watch s = Some c ->
  emitted s (PositionUpdate now loc :: es) =
    fst (checkProximity c now loc (notifiedTasks s)) :: emitted (onPosition now loc s) es.
Proof.
  intros H. cbn [App.emitted App.step].
  destruct (onPosition_watch now loc s c H) as (_ & _ & Hn & _).
  rewrite Hn, skipn_length_app. reflexivity.
Qed.


(** One update delivered to a callback whose closure holds the single task
    [task]: what it emits, and what the next update will find. *)
Lemma position_one now loc s c task :
  watch s = Some c ->
  c_tasks c = [task] ->
  let r := checkTask c now loc ([], notifiedTasks s) task in
  let s' := onPosition now loc s in
  forall es,
    emitted s (PositionUpdate now loc :: es) = fst r :: emitted s' es /\
    watch s' = Some c /\ notifiedTasks s' = snd r.
Proof.
  intros Hw Hc r s' es.
  rewrite (emitted_position now loc s c es Hw).
  destruct (onPosition_watch now loc s c Hw) as (Hw' & _ & _ & Hs).
  rewrite (checkProximity_one c now loc _ task Hc) in *.
  auto.
Qed.

(** C2, as the component runs, for every path through the bands of the
    claim: between the thresholds (2000 m), within the threshold (1000 m),
    within it again (1500 m), beyond twice the threshold (3500 m), within
    it (1000 m).  The callback registered when tracking started keeps
    reading the set of that render (empty), so the third update alerts
    again: three alerts, not two. *)
Theorem hysteresis_path_as_subscribed
    (task : Task.t) (l1 l2 l3 l4 l5 : Position.t) (n1 n2 n3 n4 n5 : nat -> Z) :
  (distanceTo l1 task <=? proximityThreshold)%float = false ->
  (proximityThreshold * 2 <? distanceTo l1 task)%float = false ->
  (distanceTo l2 task <=? proximityThreshold)%float = true ->
  (distanceTo l3 task <=? proximityThreshold)%float = true ->
  (proximityThreshold * 2 <? distanceTo l4 task)%float = true ->
  (distanceTo l5 task <=? proximityThreshold)%float = true ->
  emitted (tracking_armed [task])
    [PositionUpdate n1 l1; PositionUpdate n2 l2; PositionUpdate n3 l3;
     PositionUpdate n4 l4; PositionUpdate n5 l5] =
  [ []; [alert_for n2 0 task]; [alert_for n3 0 task]; []; [alert_for n5 0 task] ].
Proof.
  intros H1 H1' H2 H3 H4 H5.
  set (c := {| c_tasks := [task]; c_notifiedTasks := ∅ |}).
  assert (Hc : c_tasks c = [task]) by reflexivity.
  assert (Hfresh : Task.id task ∉ c_notifiedTasks c) by (simpl; set_solver).
  assert (Hw0 : watch (tracking_armed [task]) = Some c) by reflexivity.
  destruct (position_one n1 l1 _ c task Hw0 Hc
              [PositionUpdate n2 l2; PositionUpdate n3 l3; PositionUpdate n4 l4; PositionUpdate n5 l5])
    as (E1 & Hw1 & _).
  rewrite E1; clear E1.
  destruct (position_one n2 l2 _ c task Hw1 Hc
              [PositionUpdate n3 l3; PositionUpdate n4 l4; PositionUpdate n5 l5])
    as (E2 & Hw2 & _).
  rewrite E2; clear E2.
  destruct (position_one n3 l3 _ c task Hw2 Hc [PositionUpdate n4 l4; PositionUpdate n5 l5])
    as (E3 & Hw3 & _).
  rewrite E3; clear E3.
  destruct (position_one n4 l4 _ c task Hw3 Hc [PositionUpdate n5 l5]) as (E4 & Hw4 & _).
  rewrite E4; clear E4.
  destruct (position_one n5 l5 _ c task Hw4 Hc []) as (E5 & _ & _).
  rewrite E5; clear E5.
  rewrite (checkTask_quiet c n1 l1 _ task (or_introl H1) H1').
  rewrite (checkTask_alert c n2 l2 _ task H2 Hfresh).
  rewrite (checkTask_alert c n3 l3 _ task H3 Hfresh).
  rewrite (checkTask_reset c n4 l4 _ task H4).
  rewrite (checkTask_alert c n5 l5 _ task H5 Hfresh).
  reflexivity.
Qed.

(** The same path when each evaluation is given the set that the previous
    one returned (the contract [evaluate] of the design): the branches of
    [checkTask] then alert twice, on the two entries into the near band. *)
Lemma hysteresis_path_threaded
    (task : Task.t) (l1 l2 l3 l4 l5 : Position.t) (n1 n2 n3 n4 n5 : nat -> Z) :
  (distanceTo l1 task <=? proximityThreshold)%float = false ->
  (proximityThreshold * 2 <? distanceTo l1 task)%float = false ->
  (distanceTo l2 task <=? proximityThreshold)%float = true ->
  (distanceTo l3 task <=? proximityThreshold)%float = true ->
  (proximityThreshold * 2 <? distanceTo l4 task)%float = true ->
  (distanceTo l5 task <=? proximityThreshold)%float = true ->
  evaluate_all [task] ∅ [(n1, l1); (n2, l2); (n3, l3); (n4, l4); (n5, l5)] =
  [ []; [alert_for n2 0 task]; []; []; [alert_for n5 0 task] ].
Proof.
  intros H1 H1' H2 H3 H4 H5.
  cbn [App.evaluate_all]. unfold App.evaluate.
  rewrite !(fun c n l p => checkProximity_one c n l p task) by reflexivity.
  rewrite (checkTask_quiet _ n1 l1 _ task (or_introl H1) H1').
  cbn [fst snd].
  rewrite (checkTask_alert _ n2 l2 _ task) by (first [exact H2 | simpl; set_solver]).
  cbn [fst snd].
  rewrite (checkTask_quiet _ n3 l3 _ task)
    by (first [right; simpl; set_solver | apply near_not_far, H3]).
  cbn [fst snd].
  rewrite (checkTask_reset _ n4 l4 _ task H4).
  cbn [fst snd].
  rewrite (checkTask_alert _ n5 l5 _ task) by (first [exact H5 | simpl; set_solver]).
  reflexivity.
Qed.

(** C3, as the component runs: a task within the threshold that the
    closure does not hold as notified alerts on the first update and again
    on the repeated one. *)
Theorem repeated_update_as_subscribed
    (task : Task.t) (loc : Position.t) (n n' : nat -> Z) :
  (distanceTo loc task <=? proximityThreshold)%float = true ->
  emitted (tracking_armed [task]) [PositionUpdate n loc; PositionUpdate n' loc] =
  [ [alert_for n 0 task]; [alert_for n' 0 task] ].
Proof.
  intros Hd.
  set (c := {| c_tasks := [task]; c_notifiedTasks := ∅ |}).
  assert (Hc : c_tasks c = [task]) by reflexivity.
  assert (Hfresh : Task.id task ∉ c_notifiedTasks c) by (simpl; set_solver).
  assert (Hw0 : watch (tracking_armed [task]) = Some c) by reflexivity.
  destruct (position_one n loc _ c task Hw0 Hc [PositionUpdate n' loc]) as (E1 & Hw1 & _).
  rewrite E1; clear E1.
  destruct (position_one n' loc _ c task Hw1 Hc []) as (E2 & _ & _).
  rewrite E2; clear E2.
  rewrite !(checkTask_alert c _ loc _ task) by assumption.
  reflexivity.
Qed.


(** *** The set that a pass returns *)

(** A task only touches its own identifier. *)
Lemma checkTask_other c now loc acc task x :
  Task.id task <> x ->
  (x ∈ snd (checkTask c now loc acc task) <-> x ∈ snd acc).
Proof.
  intros Hne. unfold App.checkTask.
  destruct (_ && _); [|destruct (_ <? _)%float]; simpl; set_solver.
Qed.

Lemma pass_other c now loc ts : forall acc x,
  (forall task, In task ts -> Task.id task <> x) ->
  (x ∈ snd (fold_left (checkTask c now loc) ts acc) <-> x ∈ snd acc).
Proof.
  induction ts as [|h ts IH]; intros acc x Hx; simpl; [tauto|].
  rewrite IH by (intros; apply Hx; simpl; auto).
  apply checkTask_other. apply Hx. simpl; auto.
Qed.

Lemma NoDup_ids_tail (h : Task.t) (ts : list Task.t) :
  List.NoDup (map Task.id (h :: ts)) ->
  List.NoDup (map Task.id ts) /\ forall task, In task ts -> Task.id task <> Task.id h.
Proof.
  simpl. intros H. inversion H as [|? ? Hnotin Hnd]; subst. split; [assumption|].
  intros task Hin Heq. apply Hnotin. rewrite <- Heq. apply in_map. assumption.
Qed.

(** After a pass over tasks with distinct identifiers: a task within the
    near threshold is in the set (it was just added, or it was there and the
    closure knew it), and a task beyond the far threshold is not. *)
Lemma pass_membership c now loc ts : forall acc task,
  List.NoDup (map Task.id ts) ->
  In task ts ->
  let set' := snd (fold_left (checkTask c now loc) ts acc) in
  ((distanceTo loc task <=? proximityThreshold)%float = true ->
   (Task.id task ∉ c_notifiedTasks c \/ Task.id task ∈ snd acc) ->
   Task.id task ∈ set') /\
  ((proximityThreshold * 2 <? distanceTo loc task)%float = true ->
   Task.id task ∉ set').
Proof.
  induction ts as [|h ts IH]; intros acc task Hnd Hin; [destruct Hin|].
  destruct (NoDup_ids_tail h ts Hnd) as [Hnd' Hfresh].
  destruct Hin as [->|Hin].
  - cbn [fold_left]. split.
    + intros Hnear Hin. apply (pass_other c now loc ts); [exact Hfresh|].
      destruct (decide (Task.id task ∈ c_notifiedTasks c)) as [Hk|Hk].
      * rewrite checkTask_quiet by (auto using near_not_far).
        destruct Hin; [contradiction|assumption].
      * rewrite checkTask_alert by assumption. simpl. set_solver.
    + intros Hfar. rewrite (pass_other c now loc ts) by exact Hfresh.
      rewrite checkTask_reset by assumption. simpl. set_solver.
  - cbn [fold_left].
    assert (Hne : Task.id h <> Task.id task)
      by (intros E; apply (Hfresh task Hin); symmetry; exact E).
    destruct (IH (checkTask c now loc acc h) task Hnd' Hin) as [IHn IHf].
    split; [|exact IHf].
    intros Hnear Hor. apply IHn; [assumption|].
    destruct Hor; [left; assumption|right].
    apply checkTask_other; assumption.
Qed.

(** A pass in which no task qualifies and every task beyond the far
    threshold is already out of the set changes nothing. *)
Lemma pass_quiet c now loc ts acc :
  (forall task, In task ts ->
     ((distanceTo loc task <=? proximityThreshold)%float = true ->
      Task.id task ∈ c_notifiedTasks c) /\
     ((proximityThreshold * 2 <? distanceTo loc task)%float = true ->
      Task.id task ∉ snd acc)) ->
  fold_left (checkTask c now loc) ts acc = acc.
Proof.
  induction ts as [|h ts IH]; intros H; [reflexivity|].
  cbn [fold_left].
  assert (Hh : checkTask c now loc acc h = acc).
  { destruct (H h (or_introl eq_refl)) as [Hn Hf].
    destruct (proximityThreshold * 2 <? distanceTo loc h)%float eqn:Efar.
    - rewrite checkTask_reset by assumption.
      destruct acc as [a set]; simpl in *. f_equal.
      specialize (Hf eq_refl). set_solver.
    - apply checkTask_quiet; [|assumption].
      destruct (distanceTo loc h <=? proximityThreshold)%float; auto. }
  rewrite Hh. apply IH. intros task Hin. apply H. simpl; auto.
Qed.

(** Idempotence of the contract [evaluate]: when the identifiers of the
    tasks are distinct and the second evaluation is given the set that the
    first returned, it emits nothing and returns that set. *)
Lemma evaluate_twice_threaded
    (current : Position.t) (ts : list Task.t) (priorState : gset Z) (n n' : nat -> Z) :
  List.NoDup (map Task.id ts) ->
  let r := evaluate current ts priorState n in
  evaluate current ts (snd r) n' = ([], snd r).
Proof.
  intros Hnd r. unfold App.evaluate at 1, App.checkProximity. cbn [c_tasks].
  apply pass_quiet. intros task Hin. cbn [c_notifiedTasks snd].
  destruct (pass_membership {| c_tasks := ts; c_notifiedTasks := priorState |}
              n current ts ([], priorState) task Hnd Hin) as [Hn Hf].
  split.
  - intros Hnear. apply Hn; [assumption|].
    cbn [c_notifiedTasks snd].
    destruct (decide (Task.id task ∈ priorState)); auto.
  - exact Hf.
Qed.


(** The set that a pass returns does not depend on the clock, and each
    identifier's membership only on its membership before. *)
Lemma checkTask_set_congr c now now' loc acc acc' task x :
  (x ∈ snd acc <-> x ∈ snd acc') ->
  (x ∈ snd (checkTask c now loc acc task) <-> x ∈ snd (checkTask c now' loc acc' task)).
Proof.
  intros H. unfold App.checkTask.
  destruct (_ && _); [|destruct (_ <? _)%float]; simpl; set_solver.
Qed.

Lemma pass_set_congr c now now' loc ts : forall acc acc' x,
  (x ∈ snd acc <-> x ∈ snd acc') ->
  (x ∈ snd (fold_left (checkTask c now loc) ts acc) <->
   x ∈ snd (fold_left (checkTask c now' loc) ts acc')).
Proof.
  induction ts as [|h ts IH]; intros acc acc' x H; simpl; [exact H|].
  apply IH. apply checkTask_set_congr. exact H.
Qed.

(** A pass either leaves an identifier as it was, or settles it whatever
    the set it started from. *)
Lemma pass_set_settles c loc ts x :
  (forall acc now, x ∈ snd (fold_left (checkTask c now loc) ts acc) <-> x ∈ snd acc) \/
  (forall acc acc' now now',
     x ∈ snd (fold_left (checkTask c now loc) ts acc) <->
     x ∈ snd (fold_left (checkTask c now' loc) ts acc')).
Proof.
  induction ts as [|h ts IH]; [left; intros; reflexivity|].
  destruct IH as [IH|IH].
  - destruct (decide (Task.id h = x)) as [E|E].
    + destruct (qualifies (c_notifiedTasks c) loc h
                || (proximityThreshold * 2 <? distanceTo loc h)%float) eqn:Eop.
      * right. intros acc acc' now now'. cbn [fold_left].
        apply pass_set_congr. unfold App.checkTask.
        unfold App.qualifies in Eop.
        destruct (_ && _); [|rewrite orb_false_l in Eop; rewrite Eop];
          cbn [fst snd]; set_solver.
      * left. intros acc now. cbn [fold_left]. rewrite IH.
        unfold App.checkTask. unfold App.qualifies in Eop.
        apply orb_false_elim in Eop as [E1 E2]. rewrite E1, E2. reflexivity.
    + left. intros acc now. cbn [fold_left]. rewrite IH.
      apply checkTask_other. exact E.
  - right. intros acc acc' now now'. cbn [fold_left]. apply IH.
Qed.

(** The part of C3 that the component keeps: a repeated update leaves the
    set as the first one left it (whatever set the closure holds). *)
Lemma repeated_update_same_set c (loc : Position.t) (prev : gset Z) (n n' : nat -> Z) :
  snd (checkProximity c n' loc (snd (checkProximity c n loc prev))) =
  snd (checkProximity c n loc prev).
Proof.
  unfold App.checkProximity. apply set_eq. intros x.
  destruct (pass_set_settles c loc (c_tasks c) x) as [H|H].
  - rewrite H. reflexivity.
  - apply H.
Qed.


(** *** The alerts that a pass emits *)

Lemma checkTask_alerts c now loc acc task :
  fst (checkTask c now loc acc task) =
  fst acc ++ (if qualifies (c_notifiedTasks c) loc task
              then [alert_for now (List.length (fst acc)) task] else []).
Proof.
  unfold App.checkTask, App.qualifies.
  destruct (_ && _); [reflexivity|].
  destruct (_ <? _)%float; simpl; rewrite app_nil_r; reflexivity.
Qed.

Lemma pass_alerts c now loc ts : forall acc,
  fst (fold_left (checkTask c now loc) ts acc) =
  fst acc ++ imap (fun k task => alert_for now (List.length (fst acc) + k) task)
                  (List.filter (qualifies (c_notifiedTasks c) loc) ts).
Proof.
  induction ts as [|h ts IH]; intros acc; cbn [fold_left List.filter].
  - simpl. rewrite app_nil_r. reflexivity.
  - rewrite IH, checkTask_alerts.
    destruct (qualifies (c_notifiedTasks c) loc h).
    + rewrite <- app_assoc. f_equal. cbn [imap app]. rewrite Nat.add_0_r. f_equal.
      apply imap_ext. intros k task _. rewrite length_app. simpl.
      f_equal. lia.
    + rewrite app_nil_r. reflexivity.
Qed.

(** One alert per task that qualifies, in the order of the task list; the
    [k]-th carries the [k]-th clock reading of the pass. *)
Lemma checkProximity_alerts c now loc prev :
  fst (checkProximity c now loc prev) =
  imap (alert_for now) (List.filter (qualifies (c_notifiedTasks c) loc) (c_tasks c)).
Proof. unfold App.checkProximity. rewrite pass_alerts. reflexivity. Qed.

Lemma imap_alert_text now (ts : list Task.t) :
  map Notification.text (imap (alert_for now) ts) = map notifText ts.
Proof.
  change (Notification.text <$> imap (alert_for now) ts = notifText <$> ts).
  rewrite fmap_imap. apply imap_const.
Qed.

Lemma imap_alert_id now (ts : list Task.t) :
  map Notification.id (imap (alert_for now) ts) = map now (seq 0 (List.length ts)).
Proof.
  change (Notification.id <$> imap (alert_for now) ts = now <$> seq 0 (List.length ts)).
  rewrite fmap_imap. apply (imap_seq_0 ts now).
Qed.

Lemma imap_alert_ext now1 now2 (ts : list Task.t) :
  (forall k, (k < List.length ts)%nat -> now1 k = now2 k) ->
  imap (alert_for now1) ts = imap (alert_for now2) ts.
Proof.
  intros H. apply imap_ext. intros k task Hk.
  unfold alert_for. rewrite H; [reflexivity|].
  apply lookup_lt_Some in Hk. exact Hk.
Qed.

(** C8 (amended): the texts of the alerts of a pass are the template of
    line 110, pin emoji included, filled with the name and the location
    label of each task that qualifies. *)
Theorem alert_text_is_template c (now : nat -> Z) (loc : Position.t) (prev : gset Z) :
  map Notification.text (fst (checkProximity c now loc prev)) =
  map (fun task =>
         ("📍 Nearby reminder: " ++ Task.name task ++ " at " ++ Task.location task)%string)
      (List.filter (qualifies (c_notifiedTasks c) loc) (c_tasks c)).
Proof. rewrite checkProximity_alerts. apply imap_alert_text. Qed.

(** C4 (amended): the location, the task list and the two sets determine
    the texts of the alerts, their number and order, and the returned set;
    the identifiers of the alerts are the readings of the clock. *)
Theorem evaluation_determined_up_to_clock
    c (loc : Position.t) (prev : gset Z) (now1 now2 : nat -> Z) :
  let r1 := checkProximity c now1 loc prev in
  let r2 := checkProximity c now2 loc prev in
  map Notification.text (fst r1) = map Notification.text (fst r2) /\
  snd r1 = snd r2 /\
  map Notification.id (fst r1) = map now1 (seq 0 (List.length (fst r1))) /\
  map Notification.id (fst r2) = map now2 (seq 0 (List.length (fst r1))) /\
  ((forall k, (k < List.length (fst r1))%nat -> now1 k = now2 k) -> r1 = r2).
Proof.
  intros r1 r2.
  assert (Hset : snd r1 = snd r2).
  { apply set_eq. intros x. apply pass_set_congr. reflexivity. }
  subst r1 r2. rewrite !checkProximity_alerts in *.
  rewrite !imap_alert_text, !imap_alert_id, !length_imap.
  repeat split; try assumption.
  intros H. apply injective_projections; [|exact Hset].
  rewrite !checkProximity_alerts. apply imap_alert_ext. exact H.
Qed.

(** *** The invariant *)

Lemma checkTask_adds_own c now loc acc task x :
  x ∈ snd (checkTask c now loc acc task) -> x ∈ snd acc \/ Task.id task = x.
Proof.
  unfold App.checkTask.
  destruct (_ && _); [|destruct (_ <? _)%float]; simpl; set_solver.
Qed.

Lemma pass_adds_listed c now loc ts : forall acc x,
  x ∈ snd (fold_left (checkTask c now loc) ts acc) ->
  x ∈ snd acc \/ exists task, In task ts /\ Task.id task = x.
Proof.
  induction ts as [|h ts IH]; intros acc x H; simpl in *; [auto|].
  destruct (IH _ _ H) as [H1|(t & Hin & Ht)].
  - destruct (checkTask_adds_own _ _ _ _ _ _ H1); eauto.
  - eauto.
Qed.

Lemma checkProximity_adds_listed c now loc prev x :
  x ∈ snd (checkProximity c now loc prev) ->
  x ∈ prev \/ exists task, In task (c_tasks c) /\ Task.id task = x.
Proof. apply pass_adds_listed. Qed.

Lemma Inv_resubscribe s :
  references_tasks (notifiedTasks s) (tasks s) -> Inv (resubscribe s).
Proof.
  intros H. split; [exact H|].
  unfold resubscribe; simpl. destruct (tracking s); [|discriminate].
  intros c [= <-]. reflexivity.
Qed.

Lemma Inv_setTracking value s : Inv s -> Inv (setTracking value s).
Proof.
  intros HI. unfold setTracking. destruct (Bool.eqb _ _); [exact HI|].
  apply Inv_resubscribe. exact (proj1 HI).
Qed.

Lemma step_preserves_Inv s e : Inv s -> Inv (step s e).
Proof.
  intros HI. pose proof HI as [Href Hw].
  destruct e as [n l u|now|id|asks|id|now loc|now|]; cbn [App.step].
  - split; assumption.
  - unfold addTask.
    destruct (_ || _); [exact HI|].
    destruct (falsy_coords _); [exact HI|].
    cbn [fst]. apply Inv_resubscribe. cbn [tasks notifiedTasks].
    intros x Hx. destruct (Href x Hx) as (t & Hin & Ht).
    exists t. split; [apply in_or_app; auto|assumption].
  - apply Inv_resubscribe. cbn [tasks notifiedTasks].
    intros x Hx. apply elem_of_difference in Hx as [Hx Hne].
    destruct (Href x Hx) as (t & Hin & Ht). exists t. split; [|assumption].
    apply filter_In. split; [assumption|].
    apply negb_true_iff, Z.eqb_neq. rewrite Ht. set_solver.
  - unfold toggleTracking. destruct (_ && _); [exact HI|].
    apply Inv_setTracking, HI.
  - split; assumption.
  - unfold App.onPosition. destruct (watch s) as [c|] eqn:Ec; [|exact HI].
    split; cbn [tasks notifiedTasks watch]; [|exact Hw].
    intros x Hx. apply checkProximity_adds_listed in Hx as [Hx|(t & Hin & Ht)].
    + apply Href; assumption.
    + exists t. rewrite <- (Hw c eq_refl). auto.
  - unfold onPositionError. destruct (watch s) as [c|] eqn:Ec; [|exact HI].
    split; cbn [tasks notifiedTasks watch]; assumption.
  - apply Inv_setTracking, HI.
Qed.

Lemma Inv_initial : Inv initial.
Proof. split; [intros x Hx; set_solver|discriminate]. Qed.

Lemma run_preserves_Inv es : forall s, Inv s -> Inv (run s es).
Proof.
  induction es as [|e es IH]; intros s H; [exact H|].
  apply IH, step_preserves_Inv, H.
Qed.

(** C9: every event keeps the set within the identifiers of the task
    list; [deleteTask] removes the task and, whatever the state, its
    identifier from the set; and a pass of [checkProximity] only adds
    identifiers of tasks of the list it evaluates. *)
Theorem notified_references_tasks (s : State) (e : event) :
  Inv s ->
  Inv (step s e) /\
  (forall id,
     tasks (deleteTask id s) =
       List.filter (fun task => negb (Task.id task =? id)%Z) (tasks s) /\
     (forall task, In task (tasks (deleteTask id s)) -> Task.id task <> id) /\
     id ∉ notifiedTasks (deleteTask id s)) /\
  (forall c now loc prev x,
     x ∈ snd (checkProximity c now loc prev) ->
     x ∈ prev \/ exists task, In task (c_tasks c) /\ Task.id task = x).
Proof.
  intros H. split; [apply step_preserves_Inv, H|]. split.
  - intros id. cbn [deleteTask resubscribe tasks notifiedTasks]. repeat split.
    + intros task Hin. apply filter_In in Hin as [_ Hne].
      apply negb_true_iff, Z.eqb_neq in Hne. exact Hne.
    + set_solver.
  - intros c now loc prev x. apply checkProximity_adds_listed.
Qed.


End ProximityFacts.

(** ** [addTask] *)

(** A missing field: nothing changes, and the user is told. *)
Lemma addTask_missing_field (now : Z) (s : State) :
  falsy (taskName s) || falsy (locationName s) || falsy (googleMapsUrl s) = true ->
  addTask now s = (s, Some "Please fill in all fields"%string).
Proof. intros H. unfold addTask. rewrite H. reflexivity. Qed.

(** [extractCoordinates] returned [null]: nothing changes, and the user is
    told. *)
Lemma addTask_unparseable (now : Z) (s : State) :
  extractCoordinates (googleMapsUrl s) = Null ->
  fst (addTask now s) = s /\ snd (addTask now s) <> None.
Proof.
  intros H. unfold addTask. rewrite H.
  destruct (_ || _); simpl; split; auto; discriminate.
Qed.

(** [extractCoordinates] returned ['SHORT_URL']: the string is truthy, so
    the test [!coords] of line 139 does not stop [addTask]; a task is
    appended whose [lat] and [lng] are [undefined], and no message is
    shown. *)
Lemma addTask_short_url (now : Z) (s : State) :
  falsy (taskName s) || falsy (locationName s) || falsy (googleMapsUrl s) = false ->
  extractCoordinates (googleMapsUrl s) = SHORT_URL ->
  tasks (fst (addTask now s)) =
    tasks s ++ [ {| Task.id := now; Task.name := taskName s;
                    Task.location := locationName s;
                    Task.lat := None; Task.lng := None;
                    Task.mapsUrl := googleMapsUrl s |} ] /\
  snd (addTask now s) = None.
Proof. intros Hf Hx. unfold addTask. rewrite Hf, Hx. simpl. auto. Qed.

(** C1, on a short link: [extractCoordinates] answers ['SHORT_URL'] and
    [addTask] creates a task all the same. *)
Theorem short_link_creates_task :
  let s := setForm "Buy drill" "Home Depot" "https://maps.app.goo.gl/abc" initial in
  extractCoordinates (googleMapsUrl s) = SHORT_URL /\
  tasks (fst (addTask 1700000000000 s)) =
    [ {| Task.id := 1700000000000; Task.name := "Buy drill";
         Task.location := "Home Depot";
         Task.lat := None; Task.lng := None;
         Task.mapsUrl := "https://maps.app.goo.gl/abc" |} ] /\
  snd (addTask 1700000000000 s) = None.
Proof. vm_compute. auto. Qed.


(** ** The matcher *)

Section RegexFacts.
Import Regex.
Local Open Scope string_scope.

Lemma append_cons (x : ascii) (a b : string) : String x a ++ b = String x (a ++ b).
Proof. reflexivity. Qed.

Lemma append_nil_l (b : string) : "" ++ b = b.
Proof. reflexivity. Qed.

Lemma append_assoc (a b c : string) : (a ++ b) ++ c = a ++ b ++ c.
Proof.
  induction a as [|x a IH]; [reflexivity|].
  rewrite !append_cons, IH. reflexivity.
Qed.

Lemma append_nil_r (a : string) : a ++ "" = a.
Proof.
  induction a as [|x a IH]; [reflexivity|].
  rewrite append_cons, IH. reflexivity.
Qed.









(** *** Decimal text *)

Lemma span_digits_spec (s : string) :
  s = fst (Number.span_digits s) ++ snd (Number.span_digits s) /\
  all_in Digit (fst (Number.span_digits s)) = true /\
  starts_in Digit (snd (Number.span_digits s)) = false.
Proof.
  induction s as [|c s IH]; [repeat split|].
  cbn [Number.span_digits]. destruct (is_digit c) eqn:Ec.
  - destruct (Number.span_digits s) as [d rest]. simpl in *.
    destruct IH as (-> & Hd & Hr). rewrite Ec. repeat split; assumption.
  - simpl. rewrite Ec. repeat split.
Qed.

(** The shape of a text accepted by [is_decimal]. *)
Lemma is_decimal_shape (s : string) :
  Number.is_decimal s = true ->
  exists ip fp, s = ip ++ "." ++ fp /\
    ip <> "" /\ all_in Digit ip = true /\ fp <> "" /\ all_in Digit fp = true.
Proof.
  unfold Number.is_decimal. intros H.
  destruct (span_digits_spec s) as (Hs & Hd & _).
  destruct (Number.span_digits s) as [ip rest]. simpl in *.
  destruct ip as [|c ip]; [discriminate|].
  destruct rest as [|[[] [] [] [] [] [] [] []] fp]; try discriminate.
  destruct fp as [|d fp]; [discriminate|].
  exists (String c ip), (String d fp). repeat split; try assumption; discriminate.
Qed.

Lemma is_decimal_intro (ip fp : string) :
  ip <> "" -> all_in Digit ip = true -> fp <> "" -> all_in Digit fp = true ->
  Number.is_decimal (ip ++ "." ++ fp) = true.
Proof.
  intros Hi Hid Hf Hfd. unfold Number.is_decimal.
  assert (Hspan : Number.span_digits (ip ++ "." ++ fp) = (ip, "." ++ fp)).
  { clear Hi. induction ip as [|c ip IH]; [reflexivity|].
    cbn [all_in in_class] in Hid. apply andb_true_iff in Hid as [Hc Hid].
    rewrite append_cons. cbn [Number.span_digits]. rewrite Hc, (IH Hid). reflexivity. }
  rewrite Hspan. destruct ip; [contradiction|]. destruct fp; [contradiction|].
  exact Hfd.
Qed.

(** A signed decimal is an optional minus sign and a decimal. *)
Lemma is_signed_decimal_shape (s : string) :
  Number.is_signed_decimal s = true ->
  (exists d, s = String "-" d /\ Number.is_decimal d = true) \/
  ((match s with String x _ => Ascii.eqb x "-" | "" => false end) = false /\
   Number.is_decimal s = true).
Proof.
  unfold Number.is_signed_decimal. intros H.
  destruct s as [|c s]; [right; split; [reflexivity|exact H]|].
  destruct (Ascii.eqb_spec c "-") as [->|Hne].
  - left. eauto.
  - right. split; [reflexivity|].
    destruct c as [[] [] [] [] [] [] [] []]; try exact H. contradiction.
Qed.

Lemma decimal_starts_with_digit (d : string) :
  Number.is_decimal d = true -> starts_in Digit d = true.
Proof.
  intros H. destruct (is_decimal_shape d H) as (ip & fp & -> & Hi & Hid & _).
  destruct ip as [|c ip]; [contradiction|].
  cbn [all_in] in Hid. apply andb_true_iff in Hid as [Hc _]. exact Hc.
Qed.





(** *** The leftmost match *)


Lemma exec_None (r : regex) (s : string) :
  exec r s = None -> forall n, match_here r (JsString.drop n s) = None.
Proof.
  induction s as [|c s IH]; intros H n.
  - cbn [exec] in H. destruct (match_here r "") eqn:E; [discriminate|].
    destruct n; exact E.
  - cbn [exec] in H. destruct (match_here r (String c s)) eqn:E; [discriminate|].
    destruct n as [|n]; [exact E|]. cbn [JsString.drop]. apply IH. exact H.
Qed.

Lemma drop_append (pre rest : string) : JsString.drop (String.length pre) (pre ++ rest) = rest.
Proof. induction pre as [|c pre IH]; [destruct rest; reflexivity|exact IH]. Qed.





End RegexFacts.

Section RegexInversion.
Import Regex.
Local Open Scope string_scope.

(** *** What a match says about the text *)

Lemma match_here_Chr_inv (c : ascii) (r : regex) (s : string) (m : found) :
  match_here (Chr c :: r) s = Some m ->
  exists s' m', s = String c s' /\ match_here r s' = Some m' /\ m = consume c m'.
Proof.
  cbn [match_here]. destruct s as [|x s]; [discriminate|].
  destruct (Ascii.eqb_spec x c) as [->|]; [|discriminate].
  destruct (match_here r s) as [m'|] eqn:E; [|discriminate].
  intros [= <-]. eauto.
Qed.

Lemma match_here_lit_inv (p : string) (r : regex) (s : string) (m : found) :
  match_here (lit p ++ r)%list s = Some m ->
  exists s' m', s = p ++ s' /\ match_here r s' = Some m' /\ m = prepend p m'.
Proof.
  revert s m. induction p as [|c p IH]; intros s m H.
  - exists s, m. destruct m. repeat split. exact H.
  - change (lit (String c p) ++ r)%list with (Chr c :: (lit p ++ r))%list in H.
    apply match_here_Chr_inv in H as (s1 & m1 & -> & H1 & ->).
    apply IH in H1 as (s' & m' & -> & H' & ->). exists s', m'. auto.
Qed.

Lemma match_here_Opt_inv (c : ascii) (r : regex) (s : string) (m : found) :
  match_here (Opt c :: r) s = Some m ->
  (exists s' m', s = String c s' /\ match_here r s' = Some m' /\ m = consume c m') \/
  match_here r s = Some m.
Proof.
  cbn [match_here]. destruct s as [|x s]; [auto|].
  destruct (Ascii.eqb_spec x c) as [->|]; [|auto].
  destruct (match_here r s) as [m'|] eqn:E; [|auto].
  intros [= <-]. left. eauto.
Qed.

Lemma match_here_Plus_inv (k : charclass) (r : regex) (s : string) (m : found) :
  match_here (Plus k :: r) s = Some m ->
  exists ds s' m', ds <> "" /\ all_in k ds = true /\ s = ds ++ s' /\
                   match_here r s' = Some m' /\ m = prepend ds m'.
Proof.
  revert m. induction s as [|x s IH]; intros m H; [discriminate|].
  change (match_here (Plus k :: r) (String x s))
    with (if in_class k x
          then match match_here (Plus k :: r) s with
               | Some m' => Some (consume x m')
               | None => option_map (consume x) (match_here r s)
               end
          else None) in H.
  destruct (in_class k x) eqn:Ex; [|discriminate].
  destruct (match_here (Plus k :: r) s) as [m1|] eqn:E1.
  - injection H as <-.
    destruct (IH m1 eq_refl) as (ds & s' & m' & _ & Hall & -> & Hm' & ->).
    exists (String x ds), s', m'. repeat split; try assumption; try discriminate.
    cbn [all_in]. rewrite Ex. exact Hall.
  - destruct (match_here r s) as [m'|] eqn:E; [|discriminate].
    injection H as <-. exists (String x ""), s, m'.
    repeat split; try assumption; try discriminate.
    cbn [all_in]. rewrite Ex. reflexivity.
Qed.

Lemma digit_not_minus (c : ascii) : is_digit c = true -> Ascii.eqb c "-" = false.
Proof. destruct (Ascii.eqb_spec c "-") as [->|]; [discriminate|reflexivity]. Qed.

Lemma match_here_decimal_inv (r : regex) (s : string) (m : found) :
  match_here (Plus Digit :: Chr "." :: Plus Digit :: r) s = Some m ->
  exists d s' m', Number.is_decimal d = true /\ s = d ++ s' /\
                  match_here r s' = Some m' /\ m = prepend d m'.
Proof.
  intros H.
  apply match_here_Plus_inv in H as (ip & s1 & m1 & Hi & Hid & -> & H & ->).
  apply match_here_Chr_inv in H as (s2 & m2 & -> & H & ->).
  apply match_here_Plus_inv in H as (fp & s' & m' & Hf & Hfd & -> & H & ->).
  exists (ip ++ "." ++ fp), s', m'. repeat split.
  - apply is_decimal_intro; assumption.
  - rewrite !append_assoc. reflexivity.
  - exact H.
  - unfold prepend, consume. cbn [fst snd]. rewrite !append_assoc. reflexivity.
Qed.

(** The group [(-?\d+\.\d+)] only captures signed decimals. *)
Lemma match_here_signed_decimal_inv (r : regex) (s : string) (m : found) :
  match_here (signed_decimal ++ r)%list s = Some m ->
  exists d s' m', Number.is_signed_decimal d = true /\ s = d ++ s' /\
                  match_here r s' = Some m' /\ m = ("", d :: snd m').
Proof.
  unfold signed_decimal. cbn [app]. intros H.
  change (option_map (fun m0 : found => ("", fst m0 :: snd m0))
            (match_here (Opt "-" :: Plus Digit :: Chr "." :: Plus Digit :: GroupClose :: r) s)
          = Some m) in H.
  destruct (match_here (Opt "-" :: _) s) as [m0|] eqn:E0; [|discriminate].
  injection H as <-.
  assert (Hclose : forall s' m1, match_here (GroupClose :: r) s' = Some m1 ->
            exists m', match_here r s' = Some m' /\ m1 = ("", snd m')).
  { intros s' m1 H1. cbn [match_here] in H1.
    destruct (match_here r s') as [m'|]; [|discriminate].
    injection H1 as <-. eauto. }
  apply match_here_Opt_inv in E0 as [(s1 & m1 & -> & H1 & ->)|H1].
  - apply match_here_decimal_inv in H1 as (d & s' & m2 & Hd & -> & H2 & ->).
    apply Hclose in H2 as (m' & Hm' & ->).
    exists (String "-" d), s', m'. repeat split; try assumption.
    cbn. rewrite append_nil_r. reflexivity.
  - apply match_here_decimal_inv in H1 as (d & s' & m2 & Hd & -> & H2 & ->).
    apply Hclose in H2 as (m' & Hm' & ->).
    exists d, s', m'. repeat split; try assumption.
    + unfold Number.is_signed_decimal.
      pose proof (decimal_starts_with_digit d Hd) as Hs.
      destruct d as [|c d]; [discriminate|]. cbn [starts_in in_class] in Hs.
      apply digit_not_minus in Hs.
      destruct c as [[] [] [] [] [] [] [] []]; try exact Hd. discriminate.
    + cbn. rewrite append_nil_r. reflexivity.
Qed.

(** A match of [p(-?\d+\.\d+)sep(-?\d+\.\d+)] reads [p], a signed decimal,
    [sep] and a signed decimal, and captures the two decimals. *)
Lemma match_here_pair_inv (p sep : string) (s : string) (m : found) :
  match_here (lit p ++ signed_decimal ++ lit sep ++ signed_decimal)%list s = Some m ->
  exists lat lng post,
    Number.is_signed_decimal lat = true /\ Number.is_signed_decimal lng = true /\
    s = p ++ lat ++ sep ++ lng ++ post /\ snd m = [lat; lng].
Proof.
  intros H.
  apply match_here_lit_inv in H as (s1 & m1 & -> & H & ->).
  apply match_here_signed_decimal_inv in H as (lat & s2 & m2 & Hlat & -> & H & ->).
  apply match_here_lit_inv in H as (s3 & m3 & -> & H & ->).
  rewrite <- (app_nil_r signed_decimal) in H.
  apply match_here_signed_decimal_inv in H as (lng & post & m4 & Hlng & -> & H & ->).
  cbn [match_here] in H. injection H as <-.
  exists lat, lng, post. repeat split; assumption.
Qed.

Lemma exec_Some (r : regex) (s : string) (caps : list string) :
  exec r s = Some caps ->
  exists pre rest m, s = pre ++ rest /\ match_here r rest = Some m /\ snd m = caps.
Proof.
  induction s as [|c s IH]; cbn [exec]; intros H.
  - destruct (match_here r "") as [m|] eqn:E; [|discriminate].
    injection H as <-. exists "", "", m. auto.
  - destruct (match_here r (String c s)) as [m|] eqn:E.
    + injection H as <-. exists "", (String c s), m. auto.
    + apply IH in H as (pre & rest & m & -> & Hm & Hc).
      exists (String c pre), rest, m. auto.
Qed.

(** Pattern 4 ends with pattern 1: where it matches, pattern 1 matches
    further right. *)
Lemma pattern4_contains_pattern1 (s : string) (m : found) :
  match_here pattern4 s = Some m ->
  exists pre rest m', s = pre ++ rest /\ match_here pattern1 rest = Some m'.
Proof.
  unfold pattern4. intros H.
  apply match_here_lit_inv in H as (s1 & m1 & -> & H & ->).
  cbn [app] in H.
  apply match_here_Plus_inv in H as (name & s2 & m2 & _ & _ & -> & H & ->).
  change (lit "/@" ++ signed_decimal ++ lit "," ++ signed_decimal)%list
    with (Chr "/" :: pattern1) in H.
  apply match_here_Chr_inv in H as (rest & m' & -> & H & ->).
  exists ("/maps/place/" ++ name ++ "/"), rest, m'. split; [|exact H].
  rewrite !append_assoc. reflexivity.
Qed.

Lemma exec_None_at (r : regex) (pre rest : string) :
  exec r (pre ++ rest) = None -> match_here r rest = None.
Proof.
  intros H. rewrite <- (drop_append pre rest). apply exec_None. exact H.
Qed.

(** Where pattern 1 finds nothing, pattern 4 finds nothing. *)
Lemma pattern4_needs_pattern1 (url : string) :
  exec pattern1 url = None -> exec pattern4 url = None.
Proof.
  intros H1. destruct (exec pattern4 url) as [caps|] eqn:H4; [|reflexivity].
  apply exec_Some in H4 as (pre & rest & m & -> & Hm & _).
  apply pattern4_contains_pattern1 in Hm as (pre' & rest' & m' & -> & Hm').
  rewrite <- append_assoc in H1. apply exec_None_at in H1. congruence.
Qed.

End RegexInversion.


(** ** [extractCoordinates] *)

Section ExtractorFacts.
Import Regex.
Local Open Scope string_scope.


(** C10: the branch of pattern 4 is never taken: a match of pattern 4
    contains a match of pattern 1, which is tried first. *)
Theorem pattern4_branch_unreachable (url : string) :
  extractCoordinates url = extractCoordinates_without_pattern4 url /\
  (exec pattern4 url <> None -> exec pattern1 url <> None).
Proof.
  split.
  - unfold extractCoordinates, extractCoordinates_without_pattern4.
    destruct (exec pattern1 url) eqn:H1; [reflexivity|].
    rewrite (pattern4_needs_pattern1 url H1). reflexivity.
  - intros H4 H1. apply H4, pattern4_needs_pattern1, H1.
Qed.

Lemma coordsOf_pair (lat lng : string) :
  coordsOf [lat; lng] = Coords (Number.parseFloat lat) (Number.parseFloat lng).
Proof. reflexivity. Qed.

(** What a successful pattern [p(-?\d+\.\d+)sep(-?\d+\.\d+)] returns. *)
Lemma exec_pair_inv (p sep url : string) (caps : list string) :
  exec (lit p ++ signed_decimal ++ lit sep ++ signed_decimal)%list url = Some caps ->
  exists pre lat lng post,
    url = pre ++ lat ++ sep ++ lng ++ post /\
    Number.is_signed_decimal lat = true /\ Number.is_signed_decimal lng = true /\
    caps = [lat; lng].
Proof.
  intros H. apply exec_Some in H as (pre & rest & m & -> & Hm & <-).
  apply match_here_pair_inv in Hm as (lat & lng & post & Hlat & Hlng & -> & Hc).
  exists (pre ++ p), lat, lng, post. rewrite append_assoc. auto.
Qed.

(** C7 (amended): a returned pair is [parseFloat] of two signed decimal
    texts that stand in the URL, separated by [","] or by ["!4d"]; no
    range is checked. *)
Theorem extracted_pair_is_parsed_text (url : string) (a b : float) :
  extractCoordinates url = Coords a b ->
  exists pre lat sep lng post,
    url = pre ++ lat ++ sep ++ lng ++ post /\
    (sep = "," \/ sep = "!4d") /\
    Number.is_signed_decimal lat = true /\
    Number.is_signed_decimal lng = true /\
    a = Number.parseFloat lat /\ b = Number.parseFloat lng.
Proof.
  unfold extractCoordinates.
  assert (Hcase : forall p sep caps,
            (sep = "," \/ sep = "!4d") ->
            exec (lit p ++ signed_decimal ++ lit sep ++ signed_decimal)%list url = Some caps ->
            coordsOf caps = Coords a b ->
            exists pre lat sep lng post,
              url = pre ++ lat ++ sep ++ lng ++ post /\
              (sep = "," \/ sep = "!4d") /\
              Number.is_signed_decimal lat = true /\
              Number.is_signed_decimal lng = true /\
              a = Number.parseFloat lat /\ b = Number.parseFloat lng).
  { intros p sep caps Hsep H Hc.
    apply exec_pair_inv in H as (pre & lat & lng & post & Hu & Hlat & Hlng & ->).
    rewrite coordsOf_pair in Hc. injection Hc as <- <-.
    exists pre, lat, sep, lng, post. auto 10. }
  destruct (exec pattern1 url) as [m1|] eqn:H1.
  { apply (Hcase "@" "," m1); auto. }
  destruct (exec pattern2 url) as [m2|] eqn:H2.
  { apply (Hcase "q=" "," m2); auto. }
  destruct (exec pattern3 url) as [m3|] eqn:H3.
  { apply (Hcase "!3d" "!4d" m3); auto. }
  rewrite (pattern4_needs_pattern1 url H1).
  destruct (_ || _); discriminate.
Qed.


End ExtractorFacts.





(** ** Binary64 arithmetic: signs *)

Section SpecFloatSigns.
Variables prec emax : Z.

Lemma binary_round_aux_opp (s : bool) (m e : Z) (l : location) :
  binary_round_aux prec emax (negb s) m e l = SFopp (binary_round_aux prec emax s m e l).
Proof.
  unfold binary_round_aux.
  destruct (shr_fexp prec emax m e l) as [mrs' e'].
  destruct (shr_fexp prec emax _ e' loc_Exact) as [mrs'' e''].
  destruct (shr_m mrs''); [reflexivity| |reflexivity].
  destruct (e'' <=? emax - prec)%Z; reflexivity.
Qed.

Lemma xorb_negb_l (a b : bool) : xorb (negb a) b = negb (xorb a b).
Proof. destruct a, b; reflexivity. Qed.

Lemma xorb_negb_r (a b : bool) : xorb a (negb b) = negb (xorb a b).
Proof. destruct a, b; reflexivity. Qed.

Lemma SFmul_opp_l (x y : spec_float) :
  SFmul prec emax (SFopp x) y = SFopp (SFmul prec emax x y).
Proof.
  destruct x as [sx|sx| |sx mx ex], y as [sy|sy| |sy my ey]; cbn [SFmul SFopp];
    rewrite ?xorb_negb_l, ?binary_round_aux_opp; reflexivity.
Qed.

Lemma SFmul_comm (x y : spec_float) : SFmul prec emax x y = SFmul prec emax y x.
Proof.
  destruct x as [sx|sx| |sx mx ex], y as [sy|sy| |sy my ey]; cbn [SFmul];
    rewrite ?(xorb_comm sx sy); try reflexivity.
  rewrite (Pos.mul_comm mx my), (Z.add_comm ex ey). reflexivity.
Qed.

Lemma SFmul_opp_r (x y : spec_float) :
  SFmul prec emax x (SFopp y) = SFopp (SFmul prec emax x y).
Proof. rewrite SFmul_comm, SFmul_opp_l, SFmul_comm. reflexivity. Qed.

Lemma SFdiv_opp_l (x y : spec_float) :
  SFdiv prec emax (SFopp x) y = SFopp (SFdiv prec emax x y).
Proof.
  destruct x as [sx|sx| |sx mx ex], y as [sy|sy| |sy my ey]; cbn [SFdiv SFopp];
    rewrite ?xorb_negb_l; try reflexivity.
  destruct (SFdiv_core_binary prec emax (Z.pos mx) ex (Z.pos my) ey) as [[mz ez] lz].
  apply binary_round_aux_opp.
Qed.

Lemma binary_normalize_opp (m e : Z) :
  binary_normalize prec emax (- m) e false = binary_normalize prec emax m e false \/
  binary_normalize prec emax (- m) e false = SFopp (binary_normalize prec emax m e false).
Proof.
  destruct m as [|p|p]; [left; reflexivity| |]; right;
    change (- Z.pos p)%Z with (Z.neg p) || change (- Z.neg p)%Z with (Z.pos p);
    unfold binary_normalize, binary_round;
    destruct (shl_align p e _) as [mz ez].
  - apply (binary_round_aux_opp false).
  - rewrite (binary_round_aux_opp false).
    destruct (binary_round_aux prec emax false (Z.pos mz) ez loc_Exact) as [[]|[]| |[] ? ?];
      reflexivity.
Qed.

(** [y - x] is [x - y] with the sign flipped, or the same value (a NaN, or
    the zero of an exact cancellation). *)
Lemma SFsub_swap (x y : spec_float) :
  SFsub prec emax y x = SFsub prec emax x y \/
  SFsub prec emax y x = SFopp (SFsub prec emax x y).
Proof.
  destruct x as [sx|sx| |sx mx ex], y as [sy|sy| |sy my ey]; cbn [SFsub SFopp];
    try (left; reflexivity); try (right; reflexivity);
    try (destruct sx, sy; (left; reflexivity) || (right; reflexivity)).
  rewrite (Z.min_comm ey ex).
  set (a := cond_Zopp sx _). set (b := cond_Zopp sy _).
  replace (b - a)%Z with (- (a - b))%Z by lia.
  apply binary_normalize_opp.
Qed.

End SpecFloatSigns.

Section FloatSigns.
Local Open Scope float_scope.

Lemma mul_opp_l (x y : float) : - x * y = - (x * y).
Proof.
  apply Prim2SF_inj. rewrite mul_spec, !opp_spec, mul_spec. apply SFmul_opp_l.
Qed.

Lemma mul_opp_r (x y : float) : x * - y = - (x * y).
Proof.
  apply Prim2SF_inj. rewrite mul_spec, !opp_spec, mul_spec. apply SFmul_opp_r.
Qed.

Lemma opp_involutive (x : float) : - - x = x.
Proof.
  apply Prim2SF_inj. rewrite !opp_spec. destruct (Prim2SF x) as [[]|[]| |[] ? ?]; reflexivity.
Qed.

Lemma mul_opp_opp (x y : float) : - x * - y = x * y.
Proof. rewrite mul_opp_l, mul_opp_r. apply opp_involutive. Qed.

Lemma mul_comm (x y : float) : x * y = y * x.
Proof. apply Prim2SF_inj. rewrite !mul_spec. apply SFmul_comm. Qed.

Lemma div_opp_l (x y : float) : - x / y = - (x / y).
Proof.
  apply Prim2SF_inj. rewrite div_spec, !opp_spec, div_spec. apply SFdiv_opp_l.
Qed.

Lemma sub_swap (x y : float) : y - x = x - y \/ y - x = - (x - y).
Proof.
  destruct (SFsub_swap prec emax (Prim2SF x) (Prim2SF y)) as [H|H]; [left|right];
    apply Prim2SF_inj; rewrite ?opp_spec, !sub_spec; exact H.
Qed.

End FloatSigns.

(** ** Binary64 arithmetic: no overflow *)

Section SpecFloatBounds.
Local Open Scope Z_scope.

Lemma digits2_pos_size (p : positive) : digits2_pos p = Pos.size p.
Proof. induction p; simpl; congruence. Qed.

Lemma Zdigits2_log2 (m : Z) : 0 < m -> Zdigits2 m = Z.log2 m + 1.
Proof.
  destruct m as [|p|p]; try lia. intros _. cbn [Zdigits2].
  rewrite digits2_pos_size. destruct p; cbn [Pos.size Z.log2]; lia.
Qed.

Lemma Zdigits2_nonneg (m : Z) : 0 <= Zdigits2 m.
Proof. destruct m; cbn [Zdigits2]; lia. Qed.

Lemma Zdigits2_mono (a b : Z) : 0 <= a <= b -> Zdigits2 a <= Zdigits2 b.
Proof.
  intros H. destruct (Z.eq_dec a 0) as [->|Ha]; [apply Zdigits2_nonneg|].
  rewrite !Zdigits2_log2 by lia. pose proof (Z.log2_le_mono a b). lia.
Qed.

Lemma Zdigits2_succ (a : Z) : 0 <= a -> Zdigits2 (a + 1) <= Zdigits2 a + 1.
Proof.
  intros H. destruct (Z.eq_dec a 0) as [->|Ha]; [reflexivity|].
  rewrite !Zdigits2_log2 by lia. pose proof (Z.log2_succ_le a) as Hs.
  rewrite <- !Z.add_1_r in Hs. lia.
Qed.

Lemma Zdigits2_mul (a b : Z) : 0 < a -> 0 < b -> Zdigits2 (a * b) <= Zdigits2 a + Zdigits2 b.
Proof.
  intros Ha Hb. rewrite !Zdigits2_log2 by lia.
  pose proof (Z.log2_mul_above a b). lia.
Qed.

Lemma Zdigits2_shiftl (a s : Z) : 0 < a -> 0 <= s -> Zdigits2 (Z.shiftl a s) = Zdigits2 a + s.
Proof.
  intros Ha Hs.
  assert (0 < Z.shiftl a s) by (rewrite Z.shiftl_mul_pow2 by lia; nia).
  rewrite !Zdigits2_log2 by lia. rewrite Z.log2_shiftl by lia. lia.
Qed.

Lemma shr_1_bounds (mrs : shr_record) :
  0 <= shr_m mrs -> 0 <= shr_m (shr_1 mrs) <= shr_m mrs.
Proof.
  destruct mrs as [m r s]. cbn [shr_m]. intros H.
  destruct m as [|[p|p|]|p]; cbn [shr_1 shr_m]; lia.
Qed.

Lemma iter_shr_1_bounds (p : positive) : forall mrs,
  0 <= shr_m mrs -> 0 <= shr_m (iter_pos shr_1 p mrs) <= shr_m mrs.
Proof.
  induction p as [p IH|p IH|]; intros mrs H; cbn [iter_pos].
  - pose proof (shr_1_bounds mrs H).
    pose proof (IH (shr_1 mrs) ltac:(lia)).
    pose proof (IH (iter_pos shr_1 p (shr_1 mrs)) ltac:(lia)). lia.
  - pose proof (IH mrs H).
    pose proof (IH (iter_pos shr_1 p mrs) ltac:(lia)). lia.
  - apply shr_1_bounds, H.
Qed.

Lemma shr_m_of_loc (m : Z) (l : location) : shr_m (shr_record_of_loc m l) = m.
Proof. destruct l as [|[]]; reflexivity. Qed.

Section Format.
Variables prec emax : Z.

Lemma shr_fexp_bounds (m e : Z) (l : location) :
  0 <= m ->
  0 <= shr_m (fst (shr_fexp prec emax m e l)) <= m /\
  snd (shr_fexp prec emax m e l) = Z.max e (fexp prec emax (Zdigits2 m + e)).
Proof.
  intros H. unfold shr_fexp, shr.
  destruct (fexp prec emax (Zdigits2 m + e) - e) as [|p|p] eqn:E; cbn [fst snd];
    rewrite ?shr_m_of_loc; try (split; lia).
  split; [|lia].
  pose proof (iter_shr_1_bounds p (shr_record_of_loc m l)) as Hb.
  rewrite shr_m_of_loc in Hb. apply Hb, H.
Qed.

Lemma round_nearest_even_bounds (m : Z) (l : location) :
  m <= round_nearest_even m l <= m + 1.
Proof. destruct l as [|[]]; cbn [round_nearest_even]; try destruct (Z.even m); lia. Qed.

End Format.

Lemma fexp64 (x : Z) : fexp prec emax x = Z.max (x - 53) (-1074).
Proof. reflexivity. Qed.

(** Rounding a mantissa of at most [D] digits at an exponent of at most
    [E] cannot overflow while there is room. *)
Lemma binary_round_aux_exp (s : bool) (mx ex : Z) (l : location) (E D B : Z) :
  0 <= mx -> ex <= E -> Zdigits2 mx <= D ->
  Z.max (E + D) (-1074) + D + 1 <= B -> B <= 971 ->
  SFexp_le B (binary_round_aux prec emax s mx ex l).
Proof.
  intros Hm He Hd HB HB'. unfold binary_round_aux.
  pose proof (shr_fexp_bounds prec emax mx ex l Hm) as [Hm1 He1].
  destruct (shr_fexp prec emax mx ex l) as [mrs' e']. cbn [fst snd] in Hm1, He1.
  pose proof (round_nearest_even_bounds (shr_m mrs') (loc_of_shr_record mrs')) as Hr.
  set (m1 := round_nearest_even (shr_m mrs') (loc_of_shr_record mrs')) in *.
  pose proof (shr_fexp_bounds prec emax m1 e' loc_Exact ltac:(lia)) as [Hm2 He2].
  destruct (shr_fexp prec emax m1 e' loc_Exact) as [mrs'' e'']. cbn [fst snd] in Hm2, He2.
  pose proof (Zdigits2_nonneg mx).
  assert (Zdigits2 m1 <= D + 1).
  { pose proof (Zdigits2_mono m1 (shr_m mrs' + 1) ltac:(lia)).
    pose proof (Zdigits2_succ (shr_m mrs') ltac:(lia)).
    pose proof (Zdigits2_mono (shr_m mrs') mx ltac:(lia)). lia. }
  rewrite fexp64 in He1, He2.
  assert (e'' <= B) by lia.
  destruct (shr_m mrs'') as [|p|p]; cbn [SFexp_le]; [exact I| |lia].
  replace (e'' <=? emax - prec) with true
    by (symmetry; apply Z.leb_le; change (emax - prec) with 971; lia).
  cbn [SFexp_le]. lia.
Qed.

(** The mantissa of a binary64 number has at most 53 digits. *)
Lemma valid_digits (s : bool) (m : positive) (e : Z) :
  valid_binary (S754_finite s m e) = true -> Zdigits2 (Z.pos m) <= 53.
Proof.
  cbn [SpecFloat.valid_binary]. unfold bounded, canonical_mantissa.
  intros H. apply andb_true_iff in H as [H _]. apply Z.eqb_eq in H.
  rewrite fexp64 in H. cbn [Zdigits2]. lia.
Qed.

Lemma SFmul_exp (x y : spec_float) (Ex Ey B : Z) :
  SFexp_le Ex x -> SFexp_le Ey y ->
  valid_binary x = true -> valid_binary y = true ->
  Z.max (Ex + Ey + 106) (-1074) + 107 <= B -> B <= 971 ->
  SFexp_le B (SFmul prec emax x y).
Proof.
  intros Hx Hy Vx Vy HB HB'.
  destruct x as [sx|sx| |sx mx ex], y as [sy|sy| |sy my ey];
    cbn [SFexp_le] in Hx, Hy; try contradiction; cbn [SFmul SFexp_le]; try exact I.
  apply valid_digits in Vx, Vy.
  apply (binary_round_aux_exp _ _ _ _ (Ex + Ey) 106); try lia.
  change (Z.pos (mx * my)) with (Z.pos mx * Z.pos my).
  pose proof (Zdigits2_mul (Z.pos mx) (Z.pos my)). lia.
Qed.

Lemma SFdiv_exp (x y : spec_float) (Ex Ey B : Z) :
  SFexp_le Ex x ->
  match y with S754_finite _ _ ey => Ey <= ey | _ => False end ->
  valid_binary x = true -> valid_binary y = true ->
  Z.max (Ex - Ey + 106) (-1074) + 107 <= B -> B <= 971 ->
  SFexp_le B (SFdiv prec emax x y).
Proof.
  intros Hx Hy Vx Vy HB HB'.
  destruct y as [sy|sy| |sy my ey]; try contradiction.
  destruct x as [sx|sx| |sx mx ex]; cbn [SFexp_le] in Hx; try contradiction;
    cbn [SFdiv SFexp_le]; try exact I.
  apply valid_digits in Vx, Vy.
  unfold SFdiv_core_binary.
  set (d1 := Zdigits2 (Z.pos mx)) in *. set (d2 := Zdigits2 (Z.pos my)) in *.
  set (e' := Z.min (fexp prec emax (d1 + ex - (d2 + ey))) (ex - ey)).
  set (m' := match ex - ey - e' with
             | Z.pos _ => Z.shiftl (Z.pos mx) (ex - ey - e')
             | 0 => Z.pos mx
             | Z.neg _ => 0
             end).
  assert (He' : e' <= ex - ey /\ d1 + ex - (d2 + ey) - 53 <= e' \/ e' = ex - ey).
  { subst e'. rewrite fexp64. lia. }
  assert (Hd2 : 0 <= d2) by apply Zdigits2_nonneg.
  assert (Hm' : 0 <= m' /\ Zdigits2 m' <= 106).
  { subst m'. destruct (ex - ey - e') as [|p|p] eqn:Es.
    - fold d1. lia.
    - rewrite <- Es. split.
      + rewrite Z.shiftl_mul_pow2 by lia. nia.
      + rewrite Zdigits2_shiftl by lia. fold d1. lia.
    - cbn. lia. }
  pose proof (Z_div_mod m' (Z.pos my) ltac:(lia)) as Hdm.
  destruct (Z.div_eucl m' (Z.pos my)) as [q r].
  assert (Hq : 0 <= q <= m') by nia.
  apply (binary_round_aux_exp _ _ _ _ (Ex - Ey) 106); try lia.
  pose proof (Zdigits2_mono q m' Hq). lia.
Qed.

End SpecFloatBounds.

Section FloatBounds.
Local Open Scope float_scope.

(** A number between [-b] and [b] is a zero or a finite number whose
    exponent is at most that of [b]. *)
Lemma SFleb_exp (x : spec_float) (m0 : positive) (e0 : Z) :
  SFleb (S754_finite true m0 e0) x = true ->
  SFleb x (S754_finite false m0 e0) = true ->
  SFexp_le e0 x.
Proof.
  unfold SFleb. destruct x as [s|s| |s m e]; cbn [SFcompare SFexp_le]; try discriminate; auto.
  - destruct s; discriminate.
  - destruct s.
    + intros H _. destruct (Z.compare_spec e0 e); try discriminate; lia.
    + intros _ H. destruct (Z.compare_spec e e0); try discriminate; lia.
Qed.

Lemma range_exp (x lo hi : float) (m0 : positive) (e0 : Z) :
  Prim2SF lo = S754_finite true m0 e0 ->
  Prim2SF hi = S754_finite false m0 e0 ->
  (lo <=? x) = true -> (x <=? hi) = true ->
  SFexp_le e0 (Prim2SF x).
Proof.
  intros Hlo Hhi. rewrite !leb_spec, Hlo, Hhi. apply SFleb_exp.
Qed.

Lemma Prim2SF_zero : Prim2SF 0 = S754_zero false.
Proof. vm_compute. reflexivity. Qed.

Lemma is_finite_exp (x : float) (B : Z) : SFexp_le B (Prim2SF x) -> is_finite x = true.
Proof.
  intros H. unfold is_finite, is_nan, is_infinity.
  rewrite !eqb_spec, abs_spec.
  replace (Prim2SF infinity) with (S754_infinity false) by (vm_compute; reflexivity).
  unfold SFeqb. destruct (Prim2SF x) as [s|s| |s m e]; cbn [SFexp_le] in H; try contradiction.
  - reflexivity.
  - cbn [SFabs SFcompare]. rewrite Z.compare_refl.
    destruct s; cbn [CompOpp]; rewrite Pos.compare_cont_refl; reflexivity.
Qed.

Lemma sub_self (x : float) (B : Z) : SFexp_le B (Prim2SF x) -> x - x = 0.
Proof.
  intros H. apply Prim2SF_inj. rewrite sub_spec, Prim2SF_zero.
  unfold SF64sub. destruct (Prim2SF x) as [s|s| |s m e]; cbn [SFexp_le] in H; try contradiction.
  - destruct s; reflexivity.
  - cbn [SFsub]. rewrite Z.sub_diag. reflexivity.
Qed.

(** A latitude between -90 and 90 degrees is a finite number of radians. *)
Lemma radians_finite (lat : float) :
  (-90 <=? lat) = true -> (lat <=? 90) = true ->
  is_finite (lat * Haversine.PI / 180) = true.
Proof.
  intros Hlo Hhi.
  assert (Hlat : SFexp_le (-46) (Prim2SF lat)).
  { apply (range_exp lat (-90) 90 6333186975989760); try assumption;
      vm_compute; reflexivity. }
  apply (is_finite_exp _ 374).
  rewrite div_spec. apply (SFdiv_exp _ _ 116 (-45)); try apply Prim2SF_valid; try lia.
  - rewrite mul_spec. apply (SFmul_exp _ _ (-46) (-51)); try apply Prim2SF_valid; try lia.
    + exact Hlat.
    + vm_compute. discriminate.
  - vm_compute. discriminate.
Qed.

(** The product of two numbers of [-1, 1] is a zero or a finite number. *)
Lemma unit_product_finite (c1 c2 : float) :
  (-1 <=? c1) = true -> (c1 <=? 1) = true ->
  (-1 <=? c2) = true -> (c2 <=? 1) = true ->
  SFexp_le 109 (Prim2SF (c1 * c2)).
Proof.
  intros H1 H1' H2 H2'.
  rewrite mul_spec. apply (SFmul_exp _ _ (-52) (-52)); try apply Prim2SF_valid; try lia.
  - apply (range_exp c1 (-1) 1 4503599627370496); try assumption; vm_compute; reflexivity.
  - apply (range_exp c2 (-1) 1 4503599627370496); try assumption; vm_compute; reflexivity.
Qed.

(** With both sines zero, the haversine term is zero. *)
Lemma zero_terms (p : float) (B : Z) :
  SFexp_le B (Prim2SF p) -> 0 * 0 + p * 0 * 0 = 0.
Proof.
  intros H. apply Prim2SF_inj.
  rewrite add_spec, !mul_spec, Prim2SF_zero.
  unfold SF64add, SF64mul.
  destruct (Prim2SF p) as [s|s| |s m e]; cbn [SFexp_le] in H; try contradiction;
    destruct s; reflexivity.
Qed.

End FloatBounds.

(** ** [calculateDistance] *)

Section HaversineFacts.
Import Haversine.
Local Open Scope float_scope.

Variable Math : MathLib.
Hypothesis conforming : Conforming Math.

(** The half angle, in radians, of a difference in degrees, and its sine. *)
Lemma half_sine_opp (t : float) :
  sin Math (- t * PI / 180 / 2) = - sin Math (t * PI / 180 / 2).
Proof. rewrite mul_opp_l, !div_opp_l. apply (sin_odd Math conforming). Qed.

Lemma half_sine_square_swap (x y : float) :
  sin Math ((y - x) * PI / 180 / 2) * sin Math ((y - x) * PI / 180 / 2) =
  sin Math ((x - y) * PI / 180 / 2) * sin Math ((x - y) * PI / 180 / 2).
Proof.
  destruct (sub_swap x y) as [-> | ->]; [reflexivity|].
  rewrite half_sine_opp. apply mul_opp_opp.
Qed.

Lemma half_sine_product_swap (c x y : float) :
  c * sin Math ((y - x) * PI / 180 / 2) * sin Math ((y - x) * PI / 180 / 2) =
  c * sin Math ((x - y) * PI / 180 / 2) * sin Math ((x - y) * PI / 180 / 2).
Proof.
  destruct (sub_swap x y) as [-> | ->]; [reflexivity|].
  rewrite half_sine_opp, !mul_opp_r, mul_opp_l. apply opp_involutive.
Qed.

(** The distance is the same in both directions. *)
Lemma calculateDistance_symmetric (lat1 lon1 lat2 lon2 : float) :
  calculateDistance Math lat1 lon1 lat2 lon2 = calculateDistance Math lat2 lon2 lat1 lon1.
Proof.
  unfold calculateDistance. cbv zeta.
  rewrite (half_sine_square_swap lat1 lat2).
  rewrite (half_sine_product_swap _ lon1 lon2).
  rewrite (mul_comm (cos Math (lat1 * PI / 180))).
  reflexivity.
Qed.

(** When both half angles are [+0] and the latitudes are valid, the
    distance is [+0]: every term of the formula vanishes. *)
Lemma calculateDistance_zero (lat1 lon1 lat2 lon2 : float) :
  (lat2 - lat1) * PI / 180 / 2 = 0 ->
  (lon2 - lon1) * PI / 180 / 2 = 0 ->
  (-90 <=? lat1) = true -> (lat1 <=? 90) = true ->
  (-90 <=? lat2) = true -> (lat2 <=? 90) = true ->
  calculateDistance Math lat1 lon1 lat2 lon2 = 0.
Proof.
  intros Hphi Hlam Hlo1 Hhi1 Hlo2 Hhi2.
  unfold calculateDistance. cbv zeta.
  rewrite Hphi, Hlam, (sin_zero Math conforming).
  destruct (cos_range Math conforming _ (radians_finite lat1 Hlo1 Hhi1)) as [Hc1 Hc1'].
  destruct (cos_range Math conforming _ (radians_finite lat2 Hlo2 Hhi2)) as [Hc2 Hc2'].
  rewrite (zero_terms _ 109 (unit_product_finite _ _ Hc1 Hc1' Hc2 Hc2')).
  replace (sqrt 0) with 0 by reflexivity.
  replace (sqrt (1 - 0)) with 1 by reflexivity.
  rewrite (atan2_zero Math conforming 1) by reflexivity.
  reflexivity.
Qed.

(** The distance from a valid coordinate to itself is zero. *)
Lemma calculateDistance_self (lat lon : float) :
  in_range lat lon = true -> calculateDistance Math lat lon lat lon = 0.
Proof.
  unfold in_range. intros H.
  apply andb_true_iff in H as [H Hhi'].
  apply andb_true_iff in H as [H Hlo'].
  apply andb_true_iff in H as [Hlo Hhi].
  assert (Hlat : lat - lat = 0).
  { apply (sub_self lat (-46)).
    apply (range_exp lat (-90) 90 6333186975989760); try assumption; vm_compute; reflexivity. }
  assert (Hlon : lon - lon = 0).
  { apply (sub_self lon (-45)).
    apply (range_exp lon (-180) 180 6333186975989760); try assumption; vm_compute; reflexivity. }
  apply calculateDistance_zero; try assumption; rewrite ?Hlat, ?Hlon; reflexivity.
Qed.

(** Two valid coordinates one [5e-324] of a degree apart (the smallest
    positive binary64 number): the difference in radians rounds to zero,
    and so does the distance. *)
Lemma calculateDistance_underflow :
  calculateDistance Math 0 0 0 0x1p-1074 = 0.
Proof. apply calculateDistance_zero; reflexivity. Qed.


End HaversineFacts.

(** C5 (amended): for a conforming library the distance is the same in
    both directions (the same binary64 value), and it is zero from a valid
    coordinate to itself. *)
Theorem distance_symmetric_zero_on_equal (Math : Haversine.MathLib) :
  Haversine.Conforming Math ->
  (forall lat1 lon1 lat2 lon2 : float,
     Haversine.calculateDistance Math lat1 lon1 lat2 lon2 =
     Haversine.calculateDistance Math lat2 lon2 lat1 lon1) /\
  (forall lat lon : float,
     in_range lat lon = true ->
     Haversine.calculateDistance Math lat lon lat lon = 0%float).
Proof.
  intros H. split.
  - apply calculateDistance_symmetric, H.
  - apply calculateDistance_self, H.
Qed.

(** The example library conforms. *)
Lemma SmallAngle_conforming : Haversine.Conforming Haversine.SmallAngle.
Proof.
  split; cbn [Haversine.sin Haversine.cos Haversine.atan2 Haversine.SmallAngle].
  - reflexivity.
  - reflexivity.
  - intros x _. split; reflexivity.
  - intros x Hx. apply Prim2SF_inj. rewrite div_spec, Prim2SF_zero.
    rewrite ltb_spec, Prim2SF_zero in Hx. unfold SFltb in Hx. unfold SF64div.
    destruct (Prim2SF x) as [s|s| |s m e]; cbn [SFcompare] in Hx; try discriminate;
      destruct s; try discriminate; reflexivity.
Qed.


(** ** Further properties of the component *)

Section ComponentFacts.

Variable calculateDistance : float -> float -> float -> float -> float.

Local Abbreviation distanceTo := (App.distanceTo calculateDistance).
Local Abbreviation checkTask := (App.checkTask calculateDistance).
Local Abbreviation qualifies := (App.qualifies calculateDistance).
Local Abbreviation resets := (App.resets calculateDistance).
Local Abbreviation checkProximity := (App.checkProximity calculateDistance).
Local Abbreviation evaluate := (App.evaluate calculateDistance).
Local Abbreviation onPosition := (App.onPosition calculateDistance).
Local Abbreviation step := (App.step calculateDistance).
Local Abbreviation run := (App.run calculateDistance).
Local Abbreviation emitted := (App.emitted calculateDistance).
Local Abbreviation reachable := (App.reachable calculateDistance).

(** *** The set after a pass *)

Lemma checkTask_cases c now loc acc task :
  checkTask c now loc acc task =
  if qualifies (c_notifiedTasks c) loc task
  then (fst acc ++ [alert_for now (List.length (fst acc)) task], snd acc ∪ {[ Task.id task ]})
  else if resets (c_notifiedTasks c) loc task
       then (fst acc, snd acc ∖ {[ Task.id task ]})
       else acc.
Proof.
  unfold App.checkTask, App.resets, App.qualifies.
  destruct (_ && _); [reflexivity|]. cbn [negb andb]. reflexivity.
Qed.

Lemma pass_set_spec c now loc ts : forall acc x,
  List.NoDup (map Task.id ts) ->
  (x ∈ snd (fold_left (checkTask c now loc) ts acc) <->
   (exists task, In task ts /\ Task.id task = x /\
                 qualifies (c_notifiedTasks c) loc task = true) \/
   (x ∈ snd acc /\
    forall task, In task ts -> Task.id task = x ->
                 resets (c_notifiedTasks c) loc task = false)).
Proof.
  induction ts as [|h ts IH]; intros acc x Hnd.
  - cbn [fold_left]. split; [intros H; right; split; [exact H|intros ? []]|].
    intros [(t & [] & _)|[H _]]; exact H.
  - destruct (NoDup_ids_tail h ts Hnd) as [Hnd' Hfresh].
    cbn [fold_left]. rewrite (IH _ x Hnd'). clear IH.
    destruct (decide (Task.id h = x)) as [E|E].
    + assert (Hnone : forall task, In task ts -> Task.id task <> x)
        by (intros t Hin; rewrite <- E; apply Hfresh, Hin).
      rewrite checkTask_cases.
      destruct (qualifies (c_notifiedTasks c) loc h) eqn:Eq;
        [|destruct (resets (c_notifiedTasks c) loc h) eqn:Er]; cbn [snd]; split.
      * intros _. left. exists h. simpl. auto.
      * intros _. right. split; [set_solver|].
        intros t Hin Ht. exfalso. exact (Hnone t Hin Ht).
      * intros [(t & Hin & Ht & _)|[Hx _]]; [exfalso; exact (Hnone t Hin Ht)|].
        set_solver.
      * intros [(t & [<-|Hin] & Ht & Hq)|[_ Hr]].
        -- congruence.
        -- exfalso. exact (Hnone t Hin Ht).
        -- specialize (Hr h (or_introl eq_refl) E). congruence.
      * intros [(t & Hin & Ht & _)|[Hx _]]; [exfalso; exact (Hnone t Hin Ht)|].
        right. split; [exact Hx|]. intros t [<-|Hin] Ht; [exact Er|].
        exfalso. exact (Hnone t Hin Ht).
      * intros [(t & [<-|Hin] & Ht & Hq)|[Hx _]].
        -- congruence.
        -- exfalso. exact (Hnone t Hin Ht).
        -- right. split; [exact Hx|]. intros t Hin Ht. exfalso. exact (Hnone t Hin Ht).
    + rewrite (checkTask_other calculateDistance c now loc acc h x E). split.
      * intros [(t & Hin & Ht & Hq)|[Hx Hr]].
        -- left. exists t. simpl. auto.
        -- right. split; [exact Hx|]. intros t [<-|Hin] Ht; [contradiction|].
           apply Hr; assumption.
      * intros [(t & [<-|Hin] & Ht & Hq)|[Hx Hr]].
        -- contradiction.
        -- left. exists t. auto.
        -- right. split; [exact Hx|]. intros t Hin Ht. apply Hr; simpl; auto.
Qed.

Lemma set_after_pass_aux c now loc prev x :
  List.NoDup (map Task.id (c_tasks c)) ->
  (x ∈ snd (checkProximity c now loc prev) <->
   (exists task, In task (c_tasks c) /\ Task.id task = x /\
                 qualifies (c_notifiedTasks c) loc task = true) \/
   (x ∈ prev /\
    forall task, In task (c_tasks c) -> Task.id task = x ->
                 resets (c_notifiedTasks c) loc task = false)).
Proof. intros H. apply (pass_set_spec c now loc (c_tasks c) ([], prev) x H). Qed.

(** X1: the set that a pass over tasks with distinct identifiers returns:
    it holds the identifier of a task that qualified (within the threshold
    and not in the set of the closure), and, of the identifiers it held
    before, those whose task was not reset (beyond twice the threshold). *)
Theorem set_after_pass (c : Closure) (now : nat -> Z) (loc : Position.t)
    (prev : gset Z) (x : Z) :
  List.NoDup (map Task.id (c_tasks c)) ->
  (x ∈ snd (checkProximity c now loc prev) <->
   (exists task, In task (c_tasks c) /\ Task.id task = x /\
                 qualifies (c_notifiedTasks c) loc task = true) \/
   (x ∈ prev /\
    forall task, In task (c_tasks c) -> Task.id task = x ->
                 resets (c_notifiedTasks c) loc task = false)).
Proof. apply set_after_pass_aux. Qed.

(** *** The order of the tasks *)

Lemma filter_Permutation {A} (f : A -> bool) (l l' : list A) :
  Permutation l l' -> Permutation (List.filter f l) (List.filter f l').
Proof.
  induction 1 as [|a l l' _ IH|a b l|l l' l'' _ IH1 _ IH2]; cbn [List.filter].
  - constructor.
  - destruct (f a); [constructor|]; exact IH.
  - destruct (f a), (f b); try reflexivity. constructor.
  - etransitivity; eassumption.
Qed.

(** X2: with distinct identifiers the order of the task list does not
    matter: the returned set is the same, and the alerts carry the same
    texts, up to their order. *)
Theorem task_order_irrelevant (ts ts' : list Task.t) (notified prev : gset Z)
    (now now' : nat -> Z) (loc : Position.t) :
  List.NoDup (map Task.id ts) ->
  Permutation ts ts' ->
  let r := checkProximity {| c_tasks := ts; c_notifiedTasks := notified |} now loc prev in
  let r' := checkProximity {| c_tasks := ts'; c_notifiedTasks := notified |} now' loc prev in
  snd r = snd r' /\
  Permutation (map Notification.text (fst r)) (map Notification.text (fst r')).
Proof.
  intros Hnd Hp r r'. split.
  - assert (Hnd' : List.NoDup (map Task.id ts')).
    { eapply Permutation_NoDup; [apply Permutation_map, Hp|exact Hnd]. }
    apply set_eq. intros x. subst r r'.
    rewrite (set_after_pass_aux {| c_tasks := ts; c_notifiedTasks := notified |}
               now loc prev x Hnd).
    rewrite (set_after_pass_aux {| c_tasks := ts'; c_notifiedTasks := notified |}
               now' loc prev x Hnd').
    cbn [c_tasks c_notifiedTasks].
    split; (intros [(t & Hin & Ht)|[Hx Hr]];
      [left; exists t; split; [|exact Ht]|right; split; [exact Hx|intros t Hin; apply Hr]]).
    + eapply Permutation_in; eassumption.
    + eapply Permutation_in; [symmetry|]; eassumption.
    + eapply Permutation_in; [symmetry|]; eassumption.
    + eapply Permutation_in; eassumption.
  - subst r r'.
    rewrite !(checkProximity_alerts calculateDistance), !imap_alert_text.
    cbn [c_tasks c_notifiedTasks].
    apply Permutation_map, filter_Permutation, Hp.
Qed.

(** *** The subscription *)

Lemma step_keeps_subscription s e :
  keeps_subscription e = true ->
  watch (step s e) = watch s /\ tasks (step s e) = tasks s /\
  tracking (step s e) = tracking s.
Proof.
  destruct e; try discriminate; intros _; cbn [App.step]; try (repeat split; reflexivity).
  - unfold App.onPosition. destruct (watch s) eqn:E; cbn; rewrite ?E; auto.
  - unfold onPositionError. destruct (watch s) eqn:E; cbn; rewrite ?E; auto.
Qed.

Lemma run_keeps_subscription es : forall s,
  forallb keeps_subscription es = true -> watch (run s es) = watch s.
Proof.
  induction es as [|e es IH]; intros s H; [reflexivity|].
  cbn [forallb] in H. apply andb_true_iff in H as [He Hes].
  change (run s (e :: es)) with (run (step s e) es).
  rewrite (IH _ Hes). apply step_keeps_subscription, He.
Qed.

(** X3: as long as no task is added or removed and tracking is not
    toggled, the registered callback stays the one of the subscription:
    whatever was emitted in between, a position update alerts for exactly
    the tasks within the threshold whose identifier is not in the set that
    the closure captured. *)
Theorem subscription_is_stale (s : State) (c : Closure) (es : list event)
    (now : nat -> Z) (loc : Position.t) :
  watch s = Some c ->
  forallb keeps_subscription es = true ->
  watch (run s es) = Some c /\
  emitted (run s es) [PositionUpdate now loc] =
    [ imap (alert_for now)
           (List.filter (qualifies (c_notifiedTasks c) loc) (c_tasks c)) ].
Proof.
  intros Hw Hes.
  assert (Hw' : watch (run s es) = Some c)
    by (rewrite (run_keeps_subscription es s Hes); exact Hw).
  split; [exact Hw'|].
  rewrite (emitted_position calculateDistance now loc _ c [] Hw').
  rewrite (checkProximity_alerts calculateDistance). reflexivity.
Qed.

Lemma Subscribed_resubscribe s : Subscribed (resubscribe s).
Proof.
  unfold Subscribed, resubscribe. cbn [watch tracking tasks].
  destruct (tracking s); cbn; auto.
Qed.

Lemma Subscribed_setTracking value s : Subscribed s -> Subscribed (setTracking value s).
Proof.
  intros H. unfold setTracking. destruct (Bool.eqb _ _); [exact H|].
  apply Subscribed_resubscribe.
Qed.

Lemma step_preserves_Subscribed s e : Subscribed s -> Subscribed (step s e).
Proof.
  intros H. destruct e as [n l u|now|id|asks|id|now loc|now|]; cbn [App.step].
  - exact H.
  - unfold addTask. destruct (_ || _); [exact H|].
    destruct (falsy_coords _); [exact H|]. apply Subscribed_resubscribe.
  - apply Subscribed_resubscribe.
  - unfold toggleTracking. destruct (_ && _); [exact H|].
    apply Subscribed_setTracking, H.
  - exact H.
  - unfold App.onPosition, Subscribed in *.
    destruct (watch s) as [c|] eqn:E; [|rewrite E; exact H].
    cbn [watch tracking tasks]. exact H.
  - unfold onPositionError, Subscribed in *.
    destruct (watch s) as [c|] eqn:E; [|rewrite E; exact H].
    cbn [watch tracking tasks]. exact H.
  - apply Subscribed_setTracking, H.
Qed.

Lemma reachable_Subscribed s : reachable s -> Subscribed s.
Proof.
  intros [es ->]. generalize initial, (eq_refl : Subscribed initial).
  induction es as [|e es IH]; intros s0 H; [exact H|].
  apply IH, step_preserves_Subscribed, H.
Qed.

(** X4: while tracking is off no callback is registered: in every state of
    the component with [tracking] false, a position update or a position
    error changes nothing. *)
Theorem idle_when_not_tracking (s : State) (now : nat -> Z) (loc : Position.t) (t : Z) :
  reachable s ->
  tracking s = false ->
  step s (PositionUpdate now loc) = s /\ step s (PositionError t) = s.
Proof.
  intros Hr Ht. apply reachable_Subscribed in Hr. unfold Subscribed in Hr.
  cbn [App.step]. unfold App.onPosition, onPositionError.
  destruct (watch s) as [c|]; [|split; reflexivity].
  destruct Hr as [Hr _]. congruence.
Qed.

(** X5: after an event that changes the task list or the tracking flag,
    the effect registers a callback that closes over the current set: the
    next position update is the evaluation that reads the set it updates. *)
Theorem renewed_subscription_reads_current_set (s : State) (e : event)
    (now : nat -> Z) (loc : Position.t) :
  renews_subscription s e ->
  tracking (step s e) = true ->
  let s' := step s e in
  let r := evaluate loc (tasks s') (notifiedTasks s') now in
  watch s' = Some {| c_tasks := tasks s'; c_notifiedTasks := notifiedTasks s' |} /\
  emitted s' [PositionUpdate now loc] = [fst r] /\
  notifiedTasks (step s' (PositionUpdate now loc)) = snd r.
Proof.
  intros He Ht s' r.
  assert (Hw : watch s' = Some {| c_tasks := tasks s'; c_notifiedTasks := notifiedTasks s' |}).
  { subst s'. destruct e as [n l u|t|id|asks|id|n l|t|]; cbn [renews_subscription] in He;
      try contradiction; cbn [App.step] in *.
    - unfold addTask in *. destruct (_ || _); [discriminate|].
      destruct (falsy_coords _); [discriminate|].
      cbn [fst resubscribe watch tracking tasks notifiedTasks] in *. rewrite Ht. reflexivity.
    - unfold deleteTask in *.
      cbn [resubscribe watch tracking tasks notifiedTasks] in *. rewrite Ht. reflexivity.
    - unfold toggleTracking, setTracking in *. rewrite He in *.
      destruct (tracking s); cbn [negb Bool.eqb] in *;
        cbn [resubscribe watch tracking tasks notifiedTasks] in *; [discriminate|].
      reflexivity.
    - unfold resumeTracking, setTracking in *. rewrite He in *. cbn [negb Bool.eqb] in *.
      cbn [resubscribe watch tracking tasks notifiedTasks] in *. reflexivity. }
  split; [exact Hw|].
  destruct (onPosition_watch calculateDistance now loc s' _ Hw) as (_ & _ & _ & Hs).
  split.
  - rewrite (emitted_position calculateDistance now loc s' _ [] Hw). reflexivity.
  - exact Hs.
Qed.


(** *** Adding, deleting, dismissing *)

Lemma filter_all {A} (f : A -> bool) (l : list A) :
  (forall x, In x l -> f x = true) -> List.filter f l = l.
Proof.
  induction l as [|a l IH]; intros H; [reflexivity|]. cbn [List.filter].
  rewrite (H a (or_introl eq_refl)), IH; [reflexivity|].
  intros x Hx. apply H. right. exact Hx.
Qed.

Lemma filter_none {A} (f : A -> bool) (l : list A) :
  (forall x, In x l -> f x = false) -> List.filter f l = [].
Proof.
  induction l as [|a l IH]; intros H; [reflexivity|]. cbn [List.filter].
  rewrite (H a (or_introl eq_refl)). apply IH.
  intros x Hx. apply H. right. exact Hx.
Qed.

Lemma filter_twice {A} (f g : A -> bool) (l : list A) :
  List.filter f (List.filter g l) = List.filter g (List.filter f l).
Proof.
  induction l as [|a l IH]; [reflexivity|]. cbn [List.filter].
  destruct (f a) eqn:Ef, (g a) eqn:Eg; cbn [List.filter]; rewrite ?Ef, ?Eg, IH; reflexivity.
Qed.

Lemma filter_same {A} (f : A -> bool) (l : list A) :
  List.filter f (List.filter f l) = List.filter f l.
Proof.
  apply filter_all. intros x Hx. apply filter_In in Hx as [_ Hx]. exact Hx.
Qed.

(** X7: deleting the identifier that [addTask] just gave removes the new
    task together with every older task of that identifier (two tasks
    added in the same millisecond share it); when the identifier was fresh
    the task list and the set are back to what they were. *)
Theorem delete_after_add (now : Z) (s : State) :
  snd (addTask now s) = None ->
  let s' := deleteTask now (fst (addTask now s)) in
  tasks s' = List.filter (fun task => negb (Task.id task =? now)%Z) (tasks s) /\
  notifiedTasks s' = notifiedTasks s ∖ {[ now ]} /\
  ((forall task, In task (tasks s) -> Task.id task <> now) ->
   references_tasks (notifiedTasks s) (tasks s) ->
   tasks s' = tasks s /\ notifiedTasks s' = notifiedTasks s).
Proof.
  intros Hok s'.
  assert (Ht : tasks s' = List.filter (fun task => negb (Task.id task =? now)%Z) (tasks s)).
  { subst s'. unfold addTask in *. destruct (_ || _); [discriminate|].
    destruct (falsy_coords _); [discriminate|].
    cbn [fst deleteTask resubscribe tasks].
    rewrite filter_app. cbn [List.filter Task.id]. rewrite Z.eqb_refl. cbn [negb].
    apply app_nil_r. }
  assert (Hs : notifiedTasks s' = notifiedTasks s ∖ {[ now ]}).
  { subst s'. unfold addTask in *. destruct (_ || _); [discriminate|].
    destruct (falsy_coords _); [discriminate|]. reflexivity. }
  split; [exact Ht|]. split; [exact Hs|].
  intros Hfresh Href. rewrite Ht, Hs. split.
  - apply filter_all. intros task Hin. apply negb_true_iff, Z.eqb_neq, Hfresh, Hin.
  - apply set_eq. intros x. split; [set_solver|]. intros Hx.
    apply elem_of_difference. split; [exact Hx|].
    destruct (Href x Hx) as (task & Hin & <-). pose proof (Hfresh task Hin). set_solver.
Qed.

Lemma deleteTask_fields (id : Z) (s : State) (ts : list Task.t) (set : gset Z) :
  List.filter (fun task => negb (Task.id task =? id)%Z) (tasks s) = ts ->
  notifiedTasks s ∖ {[ id ]} = set ->
  deleteTask id s =
  resubscribe
    {| tasks := ts; taskName := taskName s; locationName := locationName s;
       googleMapsUrl := googleMapsUrl s; userLocation := userLocation s;
       notifications := notifications s; tracking := tracking s;
       notifiedTasks := set; watch := watch s |}.
Proof. intros <- <-. reflexivity. Qed.

(** X8: [deleteTask] is idempotent, two deletions commute, and deleting an
    identifier that no task and no set entry carries only renews the
    subscription. *)
Theorem deleteTask_algebra (a b : Z) (s : State) :
  deleteTask a (deleteTask a s) = deleteTask a s /\
  deleteTask a (deleteTask b s) = deleteTask b (deleteTask a s) /\
  ((forall task, In task (tasks s) -> Task.id task <> a) ->
   a ∉ notifiedTasks s ->
   deleteTask a s = resubscribe s).
Proof.
  split; [|split].
  - rewrite (deleteTask_fields a (deleteTask a s) (tasks (deleteTask a s))
               (notifiedTasks (deleteTask a s))).
    + reflexivity.
    + cbn [deleteTask resubscribe tasks]. apply filter_same.
    + cbn [deleteTask resubscribe notifiedTasks]. set_solver.
  - rewrite (deleteTask_fields a (deleteTask b s) (tasks (deleteTask b (deleteTask a s)))
               (notifiedTasks (deleteTask b (deleteTask a s)))).
    + reflexivity.
    + cbn [deleteTask resubscribe tasks]. apply filter_twice.
    + cbn [deleteTask resubscribe notifiedTasks]. set_solver.
  - intros Hfresh Ha.
    rewrite (deleteTask_fields a s (tasks s) (notifiedTasks s)).
    + destruct s; reflexivity.
    + apply filter_all. intros task Hin. apply negb_true_iff, Z.eqb_neq, Hfresh, Hin.
    + set_solver.
Qed.

(** X9: the alerts of one pass whose clock readings all fall in the same
    millisecond share one identifier, and dismissing it dismisses all of
    them. *)
Theorem dismiss_removes_whole_pass (s : State) (c : Closure) (t : Z) (loc : Position.t) :
  watch s = Some c ->
  let s' := onPosition (fun _ => t) loc s in
  (forall n, In n (List.skipn (List.length (notifications s)) (notifications s')) ->
             Notification.id n = t) /\
  notifications (dismissNotification t s') =
    List.filter (fun n => negb (Notification.id n =? t)%Z) (notifications s).
Proof.
  intros Hw s'.
  destruct (onPosition_watch calculateDistance (fun _ => t) loc s c Hw) as (_ & _ & Hn & _).
  fold s' in Hn.
  assert (Hids : forall n, In n (fst (checkProximity c (fun _ => t) loc (notifiedTasks s))) ->
                           Notification.id n = t).
  { intros n Hin. rewrite (checkProximity_alerts calculateDistance) in Hin.
    apply list_elem_of_In, elem_of_lookup_imap in Hin as (k & task & -> & _). reflexivity. }
  split.
  - rewrite Hn, skipn_length_app. exact Hids.
  - cbn [dismissNotification notifications]. rewrite Hn, filter_app.
    rewrite (filter_none _ (fst _)); [apply app_nil_r|].
    intros n Hin. rewrite (Hids n Hin), Z.eqb_refl. reflexivity.
Qed.


(** *** The two thresholds, again *)

Lemma is_nan_Prim2SF (d : float) : is_nan d = true -> Prim2SF d = S754_nan.
Proof.
  unfold is_nan. rewrite eqb_spec. unfold SFeqb.
  destruct (Prim2SF d) as [s|s| |s m e]; cbn [SFcompare]; try reflexivity.
  - discriminate.
  - destruct s; discriminate.
  - rewrite Z.compare_refl.
    destruct s; cbn [CompOpp]; rewrite Pos.compare_cont_refl; discriminate.
Qed.

Lemma nan_not_leb (d x : float) : is_nan d = true -> (d <=? x)%float = false.
Proof. intros H. rewrite leb_spec, (is_nan_Prim2SF d H). reflexivity. Qed.

Lemma nan_not_gtb (d x : float) : is_nan d = true -> (x <? d)%float = false.
Proof.
  intros H. rewrite ltb_spec, (is_nan_Prim2SF d H). unfold SFltb.
  destruct (Prim2SF x); reflexivity.
Qed.

(** X10: the bands of [checkTask].  A task within the threshold is never
    reset, so a task that was notified stays in the set while the user is
    near; 1609 m is within the threshold and 3218 m is not beyond twice
    it; a distance that is [NaN] neither alerts nor resets. *)
Theorem threshold_bands (notified : gset Z) (loc : Position.t) (task : Task.t) :
  let d := distanceTo loc task in
  ((d <=? proximityThreshold)%float = true -> resets notified loc task = false) /\
  (d = 1609%float -> qualifies notified loc task = negb (has notified (Task.id task))) /\
  (d = 3218%float ->
   qualifies notified loc task = false /\ resets notified loc task = false) /\
  (is_nan d = true ->
   qualifies notified loc task = false /\ resets notified loc task = false).
Proof.
  intros d. unfold App.resets, App.qualifies. fold d. repeat split.
  - intros H. rewrite (near_not_far d H). apply andb_false_r.
  - intros ->. reflexivity.
  - rewrite H. reflexivity.
  - rewrite H. reflexivity.
  - rewrite (nan_not_leb d _ H). reflexivity.
  - rewrite (nan_not_gtb d _ H). apply andb_false_r.
Qed.


End ComponentFacts.


(** ** Toggling *)


(** ** Standing still *)

Section StandingStill.

Variable calculateDistance : float -> float -> float -> float -> float.

Local Abbreviation qualifies := (App.qualifies calculateDistance).
Local Abbreviation checkProximity := (App.checkProximity calculateDistance).
Local Abbreviation onPosition := (App.onPosition calculateDistance).
Local Abbreviation step := (App.step calculateDistance).
Local Abbreviation run := (App.run calculateDistance).
Local Abbreviation emitted := (App.emitted calculateDistance).

Lemma stay_settled (c : Closure) (loc : Position.t) (n0 : nat -> Z) (prev : gset Z)
    (ns : list (nat -> Z)) : forall t,
  watch t = Some c ->
  notifiedTasks t = snd (checkProximity c n0 loc prev) ->
  let stay := map (fun n' => PositionUpdate n' loc) ns in
  notifiedTasks (run t stay) = notifiedTasks t /\
  map (map Notification.text) (emitted t stay) =
    map (fun _ => map notifText
                    (List.filter (qualifies (c_notifiedTasks c) loc) (c_tasks c))) ns.
Proof.
  induction ns as [|n' ns IH]; intros t Hw Hs; cbv zeta; [split; reflexivity|].
  cbn [map]. change (run t (?e :: ?es)) with (run (step t e) es).
  rewrite (emitted_position calculateDistance n' loc t c _ Hw).
  cbn [App.step map].
  destruct (onPosition_watch calculateDistance n' loc t c Hw) as (Hw' & _ & _ & Hs').
  assert (E : notifiedTasks (onPosition n' loc t) = notifiedTasks t).
  { rewrite Hs', Hs. apply repeated_update_same_set. }
  destruct (IH (onPosition n' loc t) Hw') as [IH1 IH2]; [rewrite E; exact Hs|].
  split; [rewrite IH1; exact E|].
  rewrite IH2, (checkProximity_alerts calculateDistance), imap_alert_text. reflexivity.
Qed.

(** X14: standing still.  Once one position update was delivered, further
    updates at the same position leave the set as that update left it,
    whatever the set the callback had captured; and each of them emits
    alerts with the same texts: those of the tasks within the threshold
    that the captured set does not hold. *)
Theorem standing_still (s : State) (c : Closure) (loc : Position.t)
    (n : nat -> Z) (ns : list (nat -> Z)) :
  watch s = Some c ->
  let s1 := step s (PositionUpdate n loc) in
  let stay := map (fun n' => PositionUpdate n' loc) ns in
  notifiedTasks (run s1 stay) = notifiedTasks s1 /\
  map (map Notification.text) (emitted s1 stay) =
    map (fun _ => map notifText
                    (List.filter (qualifies (c_notifiedTasks c) loc) (c_tasks c))) ns.
Proof.
  intros Hw s1 stay. subst s1 stay. cbn [App.step].
  destruct (onPosition_watch calculateDistance n loc s c Hw) as (Hw' & _ & _ & Hs').
  exact (stay_settled c loc n (notifiedTasks s) ns _ Hw' Hs').
Qed.

End StandingStill.


(** ** Further properties of [extractCoordinates] *)

Section ShortLinks.
Import Regex.
Local Open Scope string_scope.

Lemma prefix_append (sub post : string) : String.prefix sub (sub ++ post) = true.
Proof.
  induction sub as [|c sub IH]; [rewrite append_nil_l; destruct post; reflexivity|].
  rewrite append_cons. cbn [String.prefix].
  destruct (ascii_dec c c) as [_|Hne]; [exact IH|contradiction].
Qed.

Lemma includes_unfold (s sub : string) :
  JsString.includes s sub =
  if String.prefix sub s then true
  else match s with
       | EmptyString => false
       | String _ s' => JsString.includes s' sub
       end.
Proof. destruct s; reflexivity. Qed.

(** [includes] finds every occurrence. *)
Lemma includes_intro (pre sub post : string) :
  JsString.includes (pre ++ sub ++ post) sub = true.
Proof.
  induction pre as [|c pre IH].
  - rewrite append_nil_l, includes_unfold, prefix_append. reflexivity.
  - rewrite append_cons, includes_unfold.
    destruct (String.prefix sub _); [reflexivity|exact IH].
Qed.

Lemma prefix_inv (sub s : string) :
  String.prefix sub s = true -> exists post, s = sub ++ post.
Proof.
  revert s. induction sub as [|c sub IH]; intros s H; [exists s; reflexivity|].
  destruct s as [|x s]; [discriminate|]. cbn [String.prefix] in H.
  destruct (ascii_dec c x) as [->|]; [|discriminate].
  destruct (IH s H) as [post ->]. exists post. reflexivity.
Qed.

(** [includes] only finds occurrences. *)
Lemma includes_inv (s sub : string) :
  JsString.includes s sub = true -> exists pre post, s = pre ++ sub ++ post.
Proof.
  induction s as [|c s IH]; rewrite includes_unfold; intros H.
  - destruct (String.prefix sub "") eqn:E; [|discriminate].
    destruct (prefix_inv _ _ E) as [post ->]. exists "", post. reflexivity.
  - destruct (String.prefix sub (String c s)) eqn:E.
    + destruct (prefix_inv _ _ E) as [post ->]. exists "", post. reflexivity.
    + destruct (IH H) as (pre & post & ->). exists (String c pre), post. reflexivity.
Qed.

(** The first test of line 70 is covered by the second. *)
Lemma short_marker_subsumed (url : string) :
  JsString.includes url "maps.app.goo.gl" = true -> JsString.includes url "goo.gl" = true.
Proof.
  intros H. apply includes_inv in H as (pre & post & ->).
  change ("maps.app.goo.gl" ++ post) with ("maps.app." ++ "goo.gl" ++ post).
  rewrite <- append_assoc. apply includes_intro.
Qed.

Lemma coordsOf_not_sentinel (m : list string) : coordsOf m <> SHORT_URL /\ coordsOf m <> Null.
Proof. split; discriminate. Qed.

(** X12: what a URL without coordinates gets.  [extractCoordinates]
    returns ['SHORT_URL'] exactly when none of the first three patterns
    matches and the URL contains ["goo.gl"], and [null] exactly when none
    matches and it does not; the test for ["maps.app.goo.gl"] adds
    nothing, and coordinates in a short link win over the marker. *)
Theorem short_link_classification (url : string) :
  let unmatched := exec pattern1 url = None /\ exec pattern2 url = None /\
                   exec pattern3 url = None in
  (extractCoordinates url = SHORT_URL <->
   unmatched /\ JsString.includes url "goo.gl" = true) /\
  (extractCoordinates url = Null <->
   unmatched /\ JsString.includes url "goo.gl" = false).
Proof.
  intros unmatched. subst unmatched. unfold extractCoordinates.
  destruct (exec pattern1 url) as [m1|] eqn:H1.
  { destruct (coordsOf_not_sentinel m1). split; split; try tauto; intros [[? _] _]; discriminate. }
  destruct (exec pattern2 url) as [m2|] eqn:H2.
  { destruct (coordsOf_not_sentinel m2).
    split; split; try tauto; intros [(_ & ? & _) _]; discriminate. }
  destruct (exec pattern3 url) as [m3|] eqn:H3.
  { destruct (coordsOf_not_sentinel m3).
    split; split; try tauto; intros [(_ & _ & ?) _]; discriminate. }
  rewrite (pattern4_needs_pattern1 url H1).
  destruct (JsString.includes url "goo.gl") eqn:Eg.
  - rewrite orb_true_r. split; split; try tauto; try discriminate.
    intros [_ ?]; discriminate.
  - destruct (JsString.includes url "maps.app.goo.gl") eqn:Em.
    + apply short_marker_subsumed in Em. congruence.
    + cbn [orb]. split; split; try tauto; try discriminate.
      intros [_ ?]; discriminate.
Qed.

(** A pair that [extractCoordinates] returns comes from two signed
    decimals of the URL. *)
Lemma extractCoordinates_Coords_inv (url : string) (a b : float) :
  extractCoordinates url = Coords a b ->
  exists pre lat sep lng post,
    url = pre ++ lat ++ sep ++ lng ++ post /\
    Number.is_signed_decimal lat = true /\ Number.is_signed_decimal lng = true.
Proof.
  unfold extractCoordinates.
  assert (Hcase : forall p sep caps,
            exec (lit p ++ signed_decimal ++ lit sep ++ signed_decimal)%list url = Some caps ->
            exists pre lat sep lng post,
              url = pre ++ lat ++ sep ++ lng ++ post /\
              Number.is_signed_decimal lat = true /\ Number.is_signed_decimal lng = true).
  { intros p sep caps H.
    apply exec_pair_inv in H as (pre & lat & lng & post & Hu & Hlat & Hlng & _).
    exists pre, lat, sep, lng, post. auto. }
  destruct (exec pattern1 url) as [m1|] eqn:H1; [intros _; apply (Hcase "@" "," m1 H1)|].
  destruct (exec pattern2 url) as [m2|] eqn:H2; [intros _; apply (Hcase "q=" "," m2 H2)|].
  destruct (exec pattern3 url) as [m3|] eqn:H3; [intros _; apply (Hcase "!3d" "!4d" m3 H3)|].
  rewrite (pattern4_needs_pattern1 url H1). destruct (_ || _); discriminate.
Qed.

Lemma has_fraction_unfold (s : string) :
  has_fraction s =
  if starts_fraction s then true
  else match s with
       | EmptyString => false
       | String _ s' => has_fraction s'
       end.
Proof. destruct s; reflexivity. Qed.

Lemma has_fraction_intro (pre : string) (a c : ascii) (post : string) :
  is_digit a = true -> is_digit c = true ->
  has_fraction (pre ++ String a (String "." (String c post))) = true.
Proof.
  intros Ha Hc. induction pre as [|x pre IH].
  - rewrite append_nil_l, has_fraction_unfold. cbn [starts_fraction].
    rewrite Ha, Hc. reflexivity.
  - rewrite append_cons, has_fraction_unfold.
    destruct (starts_fraction _); [reflexivity|exact IH].
Qed.

(** Digits end with a digit. *)
Lemma digits_last (s : string) :
  s <> "" -> all_in Digit s = true ->
  exists init a, s = init ++ String a "" /\ is_digit a = true.
Proof.
  induction s as [|x s IH]; [contradiction|]. intros _ H.
  cbn [all_in in_class] in H. apply andb_true_iff in H as [Hx Hs].
  destruct s as [|y s].
  - exists "", x. split; [reflexivity|exact Hx].
  - destruct IH as (init & a & E & Ha); [discriminate|exact Hs|].
    exists (String x init), a. rewrite append_cons, <- E. split; [reflexivity|exact Ha].
Qed.

Lemma decimal_has_fraction (pre d post : string) :
  Number.is_decimal d = true -> has_fraction (pre ++ d ++ post) = true.
Proof.
  intros H. destruct (is_decimal_shape d H) as (ip & fp & -> & Hip & Hdi & Hfp & Hdf).
  destruct (digits_last ip Hip Hdi) as (init & a & -> & Ha).
  destruct fp as [|c fp]; [contradiction|].
  cbn [all_in in_class] in Hdf. apply andb_true_iff in Hdf as [Hc _].
  replace (pre ++ ((init ++ String a "") ++ "." ++ String c fp) ++ post)
    with ((pre ++ init) ++ String a (String "." (String c (fp ++ post)))).
  - apply has_fraction_intro; assumption.
  - rewrite !append_assoc. rewrite !append_cons, !append_nil_l. reflexivity.
Qed.

(** X13: whole numbers are not coordinates: from a URL in which no dot
    stands between two digits, [extractCoordinates] never returns a
    pair. *)
Theorem no_fraction_no_coordinates (url : string) :
  has_fraction url = false ->
  extractCoordinates url = SHORT_URL \/ extractCoordinates url = Null.
Proof.
  intros H. destruct (extractCoordinates url) as [a b| |] eqn:E; auto.
  exfalso.
  apply extractCoordinates_Coords_inv in E as (pre & lat & sep & lng & post & -> & Hlat & _).
  assert (Hin : has_fraction (pre ++ lat ++ sep ++ lng ++ post) = true).
  { destruct (is_signed_decimal_shape lat Hlat) as [(d & -> & Hd)|[_ Hd]].
    - replace (pre ++ String "-" d ++ sep ++ lng ++ post)
        with ((pre ++ "-") ++ d ++ sep ++ lng ++ post)
        by (rewrite append_assoc; reflexivity).
      apply decimal_has_fraction, Hd.
    - apply decimal_has_fraction, Hd. }
  congruence.
Qed.

End ShortLinks.


(** ** The tasks of a run *)

Section TaskData.

Variable calculateDistance : float -> float -> float -> float -> float.

Local Abbreviation step := (App.step calculateDistance).
Local Abbreviation run := (App.run calculateDistance).
Local Abbreviation reachable := (App.reachable calculateDistance).

Lemma setTracking_tasks value s : tasks (setTracking value s) = tasks s.
Proof. unfold setTracking. destruct (Bool.eqb _ _); reflexivity. Qed.

Lemma step_tasks_as_added s e :
  (forall task, In task (tasks s) -> as_added task) ->
  forall task, In task (tasks (step s e)) -> as_added task.
Proof.
  intros H. destruct e as [n l u|now|id|asks|id|now loc|now|]; cbn [App.step].
  - exact H.
  - unfold addTask.
    destruct (falsy (taskName s)) eqn:E1; [exact H|].
    destruct (falsy (locationName s)) eqn:E2; [exact H|].
    destruct (falsy (googleMapsUrl s)) eqn:E3; [exact H|]. cbn [orb].
    destruct (falsy_coords _) eqn:E4; [exact H|].
    cbn [fst resubscribe tasks]. intros task Hin.
    apply in_app_or in Hin as [Hin|[<-|[]]]; [exact (H task Hin)|].
    repeat split; assumption.
  - cbn [deleteTask resubscribe tasks]. intros task Hin.
    apply filter_In in Hin as [Hin _]. exact (H task Hin).
  - unfold toggleTracking. destruct (_ && _); [exact H|].
    rewrite setTracking_tasks. exact H.
  - exact H.
  - unfold App.onPosition. destruct (watch s); exact H.
  - unfold onPositionError. destruct (watch s); exact H.
  - unfold resumeTracking. rewrite setTracking_tasks. exact H.
Qed.

Lemma extract_SHORT_URL_marker (url : string) :
  extractCoordinates url = SHORT_URL -> JsString.includes url "goo.gl" = true.
Proof.
  unfold extractCoordinates.
  destruct (Regex.exec pattern1 url); [unfold coordsOf; discriminate|].
  destruct (Regex.exec pattern2 url); [unfold coordsOf; discriminate|].
  destruct (Regex.exec pattern3 url); [unfold coordsOf; discriminate|].
  destruct (Regex.exec pattern4 url); [unfold coordsOf; discriminate|].
  destruct (JsString.includes url "goo.gl") eqn:Eg; [reflexivity|].
  destruct (JsString.includes url "maps.app.goo.gl") eqn:Em; [|discriminate].
  apply short_marker_subsumed in Em. congruence.
Qed.

(** X6: the tasks of every state of the component are as [addTask] built
    them (nothing edits a task): each has a non-empty name, location
    label and URL, and the [lat] and [lng] that [extractCoordinates]
    gives for its URL.  So [lat] and [lng] are undefined together, and
    only for a URL without coordinates that contains ["goo.gl"]. *)
Theorem tasks_stay_as_added (s : State) (task : Task.t) :
  reachable s ->
  In task (tasks s) ->
  as_added task /\
  (Task.lat task = None <-> Task.lng task = None) /\
  (Task.lat task = None ->
   extractCoordinates (Task.mapsUrl task) = SHORT_URL /\
   JsString.includes (Task.mapsUrl task) "goo.gl" = true).
Proof.
  intros [es ->] Hin.
  assert (Ha : as_added task).
  { revert task Hin. generalize initial, (fun task (H : In task (tasks initial)) =>
                                            False_ind (as_added task) H).
    induction es as [|e es IH]; intros s0 H0; [exact H0|].
    apply (IH (step s0 e)), step_tasks_as_added, H0. }
  split; [exact Ha|].
  destruct Ha as (_ & _ & _ & Hc & Hlat & Hlng).
  destruct (extractCoordinates (Task.mapsUrl task)) as [a b| |] eqn:E;
    cbn [falsy_coords coords_lat coords_lng] in *; [| |discriminate].
  - rewrite Hlat, Hlng. split; [split; discriminate|discriminate].
  - rewrite Hlat, Hlng. split; [split; reflexivity|].
    intros _. split; [reflexivity|]. apply extract_SHORT_URL_marker, E.
Qed.

End TaskData.


(** ** Tasks without coordinates *)

Section NaNFacts.
Import Haversine.
Local Open Scope float_scope.

Lemma Prim2SF_nan : Prim2SF nan = S754_nan.
Proof. vm_compute. reflexivity. Qed.

Lemma sub_nan_l (x : float) : nan - x = nan.
Proof. apply Prim2SF_inj. rewrite sub_spec, Prim2SF_nan. reflexivity. Qed.

Lemma mul_nan_l (x : float) : nan * x = nan.
Proof. apply Prim2SF_inj. rewrite mul_spec, Prim2SF_nan. reflexivity. Qed.

Lemma mul_nan_r (x : float) : x * nan = nan.
Proof. rewrite mul_comm. apply mul_nan_l. Qed.

Lemma div_nan_l (x : float) : nan / x = nan.
Proof. apply Prim2SF_inj. rewrite div_spec, Prim2SF_nan. reflexivity. Qed.

Lemma add_nan_l (x : float) : nan + x = nan.
Proof. apply Prim2SF_inj. rewrite add_spec, Prim2SF_nan. reflexivity. Qed.

Lemma add_nan_r (x : float) : x + nan = nan.
Proof.
  apply Prim2SF_inj. rewrite add_spec, Prim2SF_nan.
  unfold SF64add. destruct (Prim2SF x); reflexivity.
Qed.

Variable Math : MathLib.
Hypothesis propagating : NaNPropagating Math.

Lemma half_sine_nan : sin Math (nan * PI / 180 / 2) = nan.
Proof. rewrite mul_nan_l, !div_nan_l. apply (sin_nan Math propagating). Qed.

Lemma distance_of_nan (a : float) : 6371e3 * (2 * atan2 Math (sqrt nan) a) = nan.
Proof.
  replace (sqrt nan) with nan by reflexivity.
  rewrite (atan2_nan Math propagating), !mul_nan_r. reflexivity.
Qed.

(** The distance to a coordinate whose latitude or longitude is [NaN]. *)
Lemma calculateDistance_nan (lat1 lon1 lat2 lon2 : float) :
  is_nan lat2 = true \/ is_nan lon2 = true ->
  calculateDistance Math lat1 lon1 lat2 lon2 = nan.
Proof.
  assert (Hnan : forall x, is_nan x = true -> x = nan).
  { intros x H. apply Prim2SF_inj. rewrite Prim2SF_nan. apply is_nan_Prim2SF, H. }
  intros [H|H]; apply Hnan in H; subst; unfold calculateDistance; cbv zeta.
  - rewrite sub_nan_l, half_sine_nan, mul_nan_l, add_nan_l. apply distance_of_nan.
  - rewrite (sub_nan_l lon1), half_sine_nan, !mul_nan_r, add_nan_r. apply distance_of_nan.
Qed.

(** X11: a task whose latitude or longitude is [undefined] (what
    [addTask] stores for a short link) is inert: whatever the position and
    the sets, [checkTask] emits nothing for it and leaves the set as it
    is. *)
Theorem undefined_coordinates_inert
    (c : Closure) (now : nat -> Z) (loc : Position.t)
    (acc : list Notification.t * gset Z) (task : Task.t) :
  Task.lat task = None \/ Task.lng task = None ->
  checkTask (calculateDistance Math) c now loc acc task = acc.
Proof.
  intros H.
  assert (Hd : distanceTo (calculateDistance Math) loc task = nan).
  { unfold distanceTo. apply calculateDistance_nan.
    destruct H as [-> | ->]; [left|right]; reflexivity. }
  unfold checkTask. fold (distanceTo (calculateDistance Math) loc task). rewrite Hd.
  reflexivity.
Qed.

End NaNFacts.


Lemma SmallAngle_propagating : Haversine.NaNPropagating Haversine.SmallAngle.
Proof. split; [reflexivity|]. intros x. apply div_nan_l. Qed.

(** ** Instances *)

Import Examples.

(** At the position of its task, an evaluation that starts from the empty
    set alerts: the distance is zero in every conforming library. *)
Lemma drill_alerts_here (Math : Haversine.MathLib) (now : nat -> Z) :
  Haversine.Conforming Math ->
  evaluate (Haversine.calculateDistance Math) here [drill] ∅ now =
    ([alert_for now 0 drill], ∅ ∪ {[ Task.id drill ]}).
Proof.
  intros H. unfold evaluate.
  rewrite (checkProximity_one _ _ _ _ _ drill) by reflexivity.
  apply checkTask_alert.
  - unfold distanceTo. cbn [Position.lat Position.lng here Task.lat Task.lng drill toNumber].
    rewrite (calculateDistance_self Math H) by reflexivity. reflexivity.
  - cbn [c_notifiedTasks]. set_solver.
Qed.

Lemma hysteresis_path_as_subscribed_witness :
  emitted haversine (tracking_armed [drill])
    [PositionUpdate (at_time 1) (degrees_north 0.017578125);
     PositionUpdate (at_time 2) (degrees_north 0.0087890625);
     PositionUpdate (at_time 3) (degrees_north 0.013671875);
     PositionUpdate (at_time 4) (degrees_north 0.03125);
     PositionUpdate (at_time 5) (degrees_north 0.0087890625)] =
  [ []; [alert_for (at_time 2) 0 drill]; [alert_for (at_time 3) 0 drill]; [];
    [alert_for (at_time 5) 0 drill] ].
Proof.
  apply (hysteresis_path_as_subscribed haversine drill); vm_compute; reflexivity.
Defined.

Lemma repeated_update_as_subscribed_witness :
  emitted haversine (tracking_armed [drill])
    [PositionUpdate (at_time 1) here; PositionUpdate (at_time 2) here] =
  [ [alert_for (at_time 1) 0 drill]; [alert_for (at_time 2) 0 drill] ].
Proof.
  apply (repeated_update_as_subscribed haversine drill here); vm_compute; reflexivity.
Defined.

(** C4, as stated, fails: the same location, task list and set, evaluated
    at two times, give alert records with different identifiers (whatever
    the conforming library). *)
Lemma alert_identifiers_follow_clock :
  in_range 40 (-75) = true /\
  forall Math, Haversine.Conforming Math ->
    let calculateDistance := Haversine.calculateDistance Math in
    map Notification.id (fst (evaluate calculateDistance here [drill] ∅ (at_time 1))) = [1%Z] /\
    map Notification.id (fst (evaluate calculateDistance here [drill] ∅ (at_time 2))) = [2%Z] /\
    evaluate calculateDistance here [drill] ∅ (at_time 1) <>
    evaluate calculateDistance here [drill] ∅ (at_time 2).
Proof.
  split; [reflexivity|]. intros Math H calculateDistance.
  subst calculateDistance.
  rewrite !(fun now => drill_alerts_here Math now H).
  cbn [fst map Notification.id alert_for at_time].
  repeat split. intros E. discriminate E.
Qed.

(** C8, as stated, fails: the text starts with the pin emoji and a space,
    which the template of the claim does not have. *)
Lemma alert_text_starts_with_pin :
  (forall Math, Haversine.Conforming Math ->
     map Notification.text
         (fst (evaluate (Haversine.calculateDistance Math) here [drill] ∅ (at_time 1))) =
       ["📍 Nearby reminder: Buy drill at Home Depot"%string]) /\
  "📍 Nearby reminder: Buy drill at Home Depot"%string <>
    "Nearby reminder: Buy drill at Home Depot"%string.
Proof.
  split; [|discriminate]. intros Math H.
  rewrite (drill_alerts_here Math _ H). reflexivity.
Qed.

Lemma notified_references_tasks_witness :
  let s := run haversine initial
             [SetForm "Buy drill" "Home Depot" "https://maps.google.com/@40.0000,-75.0000,15z";
              AddTask 1700000000000; ToggleTracking false; PositionUpdate (at_time 1) here] in
  Inv s /\
  Inv (step haversine s (DeleteTask 1700000000000)) /\
  (forall id,
     tasks (deleteTask id s) =
       List.filter (fun task => negb (Task.id task =? id)%Z) (tasks s) /\
     (forall task, In task (tasks (deleteTask id s)) -> Task.id task <> id) /\
     id ∉ notifiedTasks (deleteTask id s)) /\
  (forall c now loc prev x,
     x ∈ snd (checkProximity haversine c now loc prev) ->
     x ∈ prev \/ exists task, In task (c_tasks c) /\ Task.id task = x).
Proof.
  intros s.
  assert (HI : Inv s) by (apply run_preserves_Inv, Inv_initial).
  split; [exact HI|].
  exact (notified_references_tasks haversine s (DeleteTask 1700000000000) HI).
Defined.



(** C7, as stated, fails: no range is checked. *)
Lemma extracted_pair_out_of_range :
  extractCoordinates "https://maps.google.com/@123.5,456.5,15z" = Coords 123.5 456.5 /\
  in_range 123.5 456.5 = false.
Proof. split; vm_compute; reflexivity. Qed.

Lemma extracted_pair_is_parsed_text_witness :
  exists pre lat sep lng post,
    "https://maps.google.com/@123.5,456.5,15z"%string =
      (pre ++ lat ++ sep ++ lng ++ post)%string /\
    (sep = ","%string \/ sep = "!4d"%string) /\
    Number.is_signed_decimal lat = true /\
    Number.is_signed_decimal lng = true /\
    123.5%float = Number.parseFloat lat /\ 456.5%float = Number.parseFloat lng.
Proof.
  apply (extracted_pair_is_parsed_text "https://maps.google.com/@123.5,456.5,15z" 123.5 456.5).
  vm_compute. reflexivity.
Defined.


Lemma distance_symmetric_zero_on_equal_witness :
  (forall lat1 lon1 lat2 lon2 : float,
     haversine lat1 lon1 lat2 lon2 = haversine lat2 lon2 lat1 lon1) /\
  (forall lat lon : float,
     in_range lat lon = true -> haversine lat lon lat lon = 0%float).
Proof.
  exact (distance_symmetric_zero_on_equal Haversine.SmallAngle SmallAngle_conforming).
Defined.

(** C5, as stated, fails: two distinct valid coordinates at distance
    zero, in every conforming library. *)
Lemma zero_distance_between_distinct_points :
  (forall Math, Haversine.Conforming Math ->
     Haversine.calculateDistance Math 0 0 0 0x1p-1074 = 0%float) /\
  in_range 0 0 = true /\
  in_range 0 0x1p-1074 = true /\
  (0 =? 0x1p-1074)%float = false.
Proof.
  split; [intros Math H; apply calculateDistance_underflow, H|].
  repeat split.
Qed.

Lemma set_after_pass_witness :
  let c := {| c_tasks := [drill; paint]; c_notifiedTasks := ∅ |} in
  List.NoDup (map Task.id (c_tasks c)) /\
  (Task.id paint ∈ snd (checkProximity meridian c (at_time 1) here {[ Task.id drill ]}) <->
   (exists task, In task (c_tasks c) /\ Task.id task = Task.id paint /\
                 qualifies meridian (c_notifiedTasks c) here task = true) \/
   (Task.id paint ∈ ({[ Task.id drill ]} : gset Z) /\
    forall task, In task (c_tasks c) -> Task.id task = Task.id paint ->
                 resets meridian (c_notifiedTasks c) here task = false)).
Proof.
  intros c.
  assert (H : List.NoDup (map Task.id (c_tasks c))).
  { constructor; [intros [E|[]]; discriminate E|]. constructor; [intros []|constructor]. }
  split; [exact H|].
  exact (set_after_pass meridian c (at_time 1) here {[ Task.id drill ]} (Task.id paint) H).
Defined.

Lemma task_order_irrelevant_witness :
  let r := checkProximity meridian {| c_tasks := [drill; paint]; c_notifiedTasks := ∅ |}
             (at_time 1) here ∅ in
  let r' := checkProximity meridian {| c_tasks := [paint; drill]; c_notifiedTasks := ∅ |}
              (at_time 2) here ∅ in
  snd r = snd r' /\
  Permutation (map Notification.text (fst r)) (map Notification.text (fst r')).
Proof.
  apply (task_order_irrelevant meridian [drill; paint] [paint; drill] ∅ ∅
           (at_time 1) (at_time 2) here).
  - constructor; [intros [E|[]]; discriminate E|]. constructor; [intros []|constructor].
  - apply perm_swap.
Defined.

Lemma subscription_is_stale_witness :
  let c := {| c_tasks := [drill; paint]; c_notifiedTasks := ∅ |} in
  let es := [PositionUpdate (at_time 1) here; Dismiss 1; SetForm "Buy nails" "" "";
             PositionError 2; PositionUpdate (at_time 3) (north 500)] in
  watch (run meridian (tracking_armed [drill; paint]) es) = Some c /\
  emitted meridian (run meridian (tracking_armed [drill; paint]) es)
    [PositionUpdate (at_time 4) here] =
    [ imap (alert_for (at_time 4))
           (List.filter (qualifies meridian (c_notifiedTasks c) here) (c_tasks c)) ].
Proof.
  intros c es.
  apply (subscription_is_stale meridian (tracking_armed [drill; paint]) c es (at_time 4) here);
    reflexivity.
Defined.

Lemma idle_when_not_tracking_witness :
  let s := run meridian initial
             [SetForm "Buy drill" "Home Depot" "https://maps.google.com/@40.0000,-75.0000,15z";
              AddTask 1700000000000; ToggleTracking false; PositionUpdate (at_time 1) here;
              ToggleTracking false] in
  step meridian s (PositionUpdate (at_time 2) (north 3500)) = s /\
  step meridian s (PositionError 3) = s.
Proof.
  intros s.
  apply (idle_when_not_tracking meridian s (at_time 2) (north 3500) 3).
  - eexists. reflexivity.
  - vm_compute. reflexivity.
Defined.

Lemma renewed_subscription_reads_current_set_witness :
  let s := run meridian initial
             [SetForm "Buy drill" "Home Depot" "https://maps.google.com/@40.0000,-75.0000,15z";
              AddTask 1700000000000; ToggleTracking false; PositionUpdate (at_time 1) here;
              SetForm "Buy paint" "Paint shop"
                      "https://maps.google.com/@40.00762939453125,-75.0000,15z"] in
  let s' := step meridian s (AddTask 1700000000001) in
  let r := evaluate meridian here (tasks s') (notifiedTasks s') (at_time 2) in
  watch s' = Some {| c_tasks := tasks s'; c_notifiedTasks := notifiedTasks s' |} /\
  emitted meridian s' [PositionUpdate (at_time 2) here] = [fst r] /\
  notifiedTasks (step meridian s' (PositionUpdate (at_time 2) here)) = snd r.
Proof.
  intros s.
  apply (renewed_subscription_reads_current_set meridian s (AddTask 1700000000001)
           (at_time 2) here); vm_compute; reflexivity.
Defined.

Lemma delete_after_add_witness :
  let s := setForm "Buy drill" "Home Depot" "https://maps.google.com/@40.0000,-75.0000,15z"
             (tracking_armed [paint]) in
  let s' := deleteTask 1700000000000 (fst (addTask 1700000000000 s)) in
  tasks s' = List.filter (fun task => negb (Task.id task =? 1700000000000)%Z) (tasks s) /\
  notifiedTasks s' = notifiedTasks s ∖ {[ 1700000000000%Z ]} /\
  ((forall task, In task (tasks s) -> Task.id task <> 1700000000000%Z) ->
   references_tasks (notifiedTasks s) (tasks s) ->
   tasks s' = tasks s /\ notifiedTasks s' = notifiedTasks s).
Proof.
  intros s.
  apply (delete_after_add 1700000000000 s). vm_compute. reflexivity.
Defined.

Lemma deleteTask_algebra_witness :
  let s := tracking_armed [drill; paint] in
  deleteTask 1700000000000 (deleteTask 1700000000000 s) = deleteTask 1700000000000 s /\
  deleteTask 1700000000000 (deleteTask 1700000000001 s) =
    deleteTask 1700000000001 (deleteTask 1700000000000 s) /\
  deleteTask 7 s = resubscribe s.
Proof.
  intros s.
  destruct (deleteTask_algebra 1700000000000 1700000000001 s) as (H1 & H2 & _).
  destruct (deleteTask_algebra 7 7 s) as (_ & _ & H3).
  split; [exact H1|]. split; [exact H2|].
  apply H3.
  - intros task [<-|[<-|[]]]; discriminate.
  - cbn. set_solver.
Defined.

Lemma dismiss_removes_whole_pass_witness :
  let s := tracking_armed [drill; paint] in
  let s' := onPosition meridian (fun _ => 7%Z) here s in
  (forall n, In n (List.skipn (List.length (notifications s)) (notifications s')) ->
             Notification.id n = 7%Z) /\
  notifications (dismissNotification 7 s') =
    List.filter (fun n => negb (Notification.id n =? 7)%Z) (notifications s).
Proof.
  intros s.
  apply (dismiss_removes_whole_pass meridian s
           {| c_tasks := [drill; paint]; c_notifiedTasks := ∅ |} 7 here).
  reflexivity.
Defined.

Lemma threshold_bands_witness :
  qualifies meridian ∅ (north 1609) drill = true /\
  resets meridian ∅ (north 1609) drill = false /\
  qualifies meridian ∅ (north 3218) drill = false /\
  resets meridian ∅ (north 3218) drill = false.
Proof.
  destruct (threshold_bands meridian ∅ (north 1609) drill) as (H1 & H2 & _).
  destruct (threshold_bands meridian ∅ (north 3218) drill) as (_ & _ & H3 & _).
  split; [apply H2; vm_compute; reflexivity|].
  split; [apply H1; vm_compute; reflexivity|].
  apply H3. vm_compute. reflexivity.
Defined.

Lemma undefined_coordinates_inert_witness :
  checkTask haversine {| c_tasks := [errand]; c_notifiedTasks := ∅ |} (at_time 1) here
            ([], ∅) errand = ([], ∅).
Proof.
  apply (undefined_coordinates_inert Haversine.SmallAngle SmallAngle_propagating).
  left. reflexivity.
Defined.

Lemma short_link_classification_witness :
  extractCoordinates "https://maps.app.goo.gl/AbCdEf123" = SHORT_URL /\
  extractCoordinates "https://example.com/" = Null.
Proof.
  split.
  - apply (short_link_classification "https://maps.app.goo.gl/AbCdEf123").
    vm_compute. auto.
  - apply (short_link_classification "https://example.com/").
    vm_compute. auto.
Defined.

Lemma no_fraction_no_coordinates_witness :
  extractCoordinates "https://maps.google.com/@40,-75,15z" = SHORT_URL \/
  extractCoordinates "https://maps.google.com/@40,-75,15z" = Null.
Proof.
  apply (no_fraction_no_coordinates "https://maps.google.com/@40,-75,15z").
  vm_compute. reflexivity.
Defined.

Lemma standing_still_witness :
  let s1 := step meridian (tracking_armed [drill; paint]) (PositionUpdate (at_time 1) here) in
  let stay := map (fun n' => PositionUpdate n' here) [at_time 2; at_time 3] in
  notifiedTasks (run meridian s1 stay) = notifiedTasks s1 /\
  map (map Notification.text) (emitted meridian s1 stay) =
    map (fun _ => map notifText
                    (List.filter (qualifies meridian ∅ here) [drill; paint]))
        [at_time 2; at_time 3].
Proof.
  apply (standing_still meridian (tracking_armed [drill; paint])
           {| c_tasks := [drill; paint]; c_notifiedTasks := ∅ |} here (at_time 1)
           [at_time 2; at_time 3]).
  reflexivity.
Defined.

Lemma tasks_stay_as_added_witness :
  let s := run meridian initial
             [SetForm "Post office" "Main Street" "https://maps.app.goo.gl/AbCdEf123";
              AddTask 1700000000002; ToggleTracking true; PermissionSettled;
              PositionUpdate (at_time 1) here] in
  as_added errand /\
  (Task.lat errand = None <-> Task.lng errand = None) /\
  (Task.lat errand = None ->
   extractCoordinates (Task.mapsUrl errand) = SHORT_URL /\
   JsString.includes (Task.mapsUrl errand) "goo.gl" = true).
Proof.
  intros s.
  apply (tasks_stay_as_added meridian s errand).
  - eexists. reflexivity.
  - vm_compute. left. reflexivity.
Defined.

